(** * Minesweeper knowledge engine: embedding of [minesweeper.py]

    The development follows the three classes of the program:
    [Minesweeper] (the board), [Sentence] (a statement "exactly [count]
    of [cells] are mines") and [MinesweeperAI] (the agent with its sets
    [moves_made], [mines], [safes] and the dictionary [knowledge]).

    The repository also keeps an older copy of the file; the
    development follows [minesweeper.py].

    Python integers are unbounded, hence [Z]; a cell is a pair of
    integers; Python sets of cells are [gset]s and the dictionary
    [knowledge] is a [gmap] keyed by cells.  A sentence fetched from the
    dictionary and mutated in place is modelled by writing the changed
    sentence back under its key. *)

From Stdlib Require Import ZArith Lia.
From stdpp Require Import base option list sorting gmap sets fin_sets.

Local Open Scope Z_scope.

Abbreviation cell := (Z * Z)%type.

(** [range(a, b)] of Python: [a, a+1, ..., b-1], empty when [b <= a]. *)
Definition range (a b : Z) : list Z := seqZ a (b - a).

(** Monadic left fold: a [for] loop whose body may fail. *)
Definition foldM {A B : Type} (f : A → B → option A) : list B → A → option A :=
  fix go l a :=
    match l with
    | [] => Some a
    | b :: l => match f a b with Some a' => go l a' | None => None end
    end.

(** ** The board: class [Minesweeper] *)

Module Minesweeper.

Record t := Minesweeper {
  height : Z;
  width : Z;
  board : list (list bool)
}.

(** [__init__], the outcome of the random placement being the cells
    [mines]: the board holds [True] exactly there. *)
Definition place (height width : Z) (mines : list cell) : t :=
  Minesweeper height width
    (fmap (λ i, fmap (λ j, bool_decide ((i, j) ∈ mines)) (range 0 width))
          (range 0 height)).

(** [self.board[i][j]] for indices already checked to be in range. *)
Definition board_at (self : t) (i j : Z) : bool :=
  match board self !! Z.to_nat i with
  | Some row => default false (row !! Z.to_nat j)
  | None => false
  end.

Definition in_bounds (self : t) (i j : Z) : bool :=
  (0 <=? i) && (i <? height self) && (0 <=? j) && (j <? width self).

Definition is_mine (self : t) (c : cell) : bool :=
  let '(i, j) := c in board_at self i j.

(** The body of the double loop of [nearby_mines]. *)
Definition nearby_step (self : t) (c : cell) (count : Z) (n : cell) : Z :=
  if bool_decide (n = c) then count
  else if in_bounds self n.1 n.2 then
    (if board_at self n.1 n.2 then count + 1 else count)
  else count.

Definition window (c : cell) : list cell :=
  i ← range (c.1 - 1) (c.1 + 2);
  j ← range (c.2 - 1) (c.2 + 2);
  [(i, j)].

Definition nearby_mines (self : t) (c : cell) : Z :=
  foldl (nearby_step self c) 0 (window c).

End Minesweeper.

(** ** Class [Sentence] *)

Module Sentence.

Record t := Sentence {
  cells : gset cell;
  count : Z;
  is_mine : bool
}.

Inductive error := NotImplementedError.

(** [__eq__]: the flag [is_mine] is not compared. *)
Definition eq (self other : t) : bool :=
  bool_decide (cells self = cells other) && (count self =? count other).

(** The four methods are stubs that raise. *)
Definition known_mines (self : t) : error + gset cell := inl NotImplementedError.
Definition known_safes (self : t) : error + gset cell := inl NotImplementedError.
Definition mark_mine (self : t) (c : cell) : error + t := inl NotImplementedError.
Definition mark_safe (self : t) (c : cell) : error + t := inl NotImplementedError.

Definition set_cells (v : gset cell) (self : t) : t :=
  Sentence v (count self) (is_mine self).
Definition set_count (v : Z) (self : t) : t :=
  Sentence (cells self) v (is_mine self).

End Sentence.

(** ** Class [MinesweeperAI] *)

Module MinesweeperAI.

Record t := MinesweeperAI {
  height : Z;
  width : Z;
  moves_made : gset cell;
  mines : gset cell;
  safes : gset cell;
  knowledge : gmap cell Sentence.t
}.

(** [__init__] *)
Definition init (height width : Z) : t :=
  MinesweeperAI height width ∅ ∅ ∅ ∅.

Definition set_moves_made (v : gset cell) (self : t) : t :=
  MinesweeperAI (height self) (width self) v (mines self) (safes self) (knowledge self).
Definition set_mines (v : gset cell) (self : t) : t :=
  MinesweeperAI (height self) (width self) (moves_made self) v (safes self) (knowledge self).
Definition set_safes (v : gset cell) (self : t) : t :=
  MinesweeperAI (height self) (width self) (moves_made self) (mines self) v (knowledge self).
Definition set_knowledge (v : gmap cell Sentence.t) (self : t) : t :=
  MinesweeperAI (height self) (width self) (moves_made self) (mines self) (safes self) v.

(** [mark_safe]: [self.safes.add(cell)] and nothing else. *)
Definition mark_safe (self : t) (c : cell) : t :=
  set_safes ({[c]} ∪ safes self) self.

(** The local variables of [add_knowledge] that the double loop
    updates, together with the agent. *)
Record scan := Scan {
  sc_self : t;
  sc_neighbors : gset cell;
  sc_mines : gset cell;
  sc_count : Z
}.

(** The cells the double loop of [add_knowledge] visits, in order.
    The first coordinate is clipped by [width], the second by [height]. *)
Definition box (self : t) (c : cell) : list cell :=
  let '(x, y) := c in
  i ← range (Z.max 0 (x - 1)) (Z.min (width self) (x + 2));
  j ← range (Z.max 0 (y - 1)) (Z.min (height self) (y + 2));
  [(i, j)].

(** One iteration of the double loop, for the cell [n = (i, j)]. *)
Definition visit (c : cell) (is_mine : bool) (sc : scan) (n : cell) : scan :=
  let self := sc_self sc in
  let neighbors := {[n]} ∪ sc_neighbors sc in
  match knowledge self !! n with
  | None => Scan self neighbors (sc_mines sc) (sc_count sc)
  | Some sentence =>
    let count :=
      if Sentence.is_mine sentence
      then (if sc_count sc =? 0 then sc_count sc else sc_count sc - 1)
      else sc_count sc in
    if decide (c ∈ Sentence.cells sentence) then
      let sentence := Sentence.set_cells (Sentence.cells sentence ∖ {[c]}) sentence in
      if is_mine then
        let sentence := Sentence.set_count (Sentence.count sentence - 1) sentence in
        let self := set_knowledge (<[n := sentence]> (knowledge self)) self in
        let self :=
          if Sentence.count sentence =? 0
          then foldl mark_safe self (elements (Sentence.cells sentence))
          else self in
        Scan self neighbors (sc_mines sc) count
      else
        let self := set_knowledge (<[n := sentence]> (knowledge self)) self in
        let mines :=
          if bool_decide (Z.of_nat (size (Sentence.cells sentence)) = Sentence.count sentence)
             && bool_decide (0 < size (Sentence.cells sentence))%nat
          then sc_mines sc ∪ Sentence.cells sentence
          else sc_mines sc in
        Scan self neighbors mines count
    else Scan self neighbors (sc_mines sc) count
  end.

(** [add_knowledge] up to its last loop: the agent after the new
    sentence is stored and the immediate safes are marked, and the
    local set [mines] that the last loop walks. *)
Definition add_knowledge_pass (self : t) (c : cell) (count : Z) (is_mine : bool)
    : t * gset cell :=
  let self := set_moves_made ({[c]} ∪ moves_made self) self in
  let sc := foldl (visit c is_mine) (Scan self ∅ ∅ count) (box self c) in
  let self := sc_self sc in
  let count := sc_count sc in
  let neighbors := sc_neighbors sc ∖ moves_made self ∖ mines self in
  let self := set_knowledge
                (<[c := Sentence.Sentence neighbors count is_mine]> (knowledge self)) self in
  if bool_decide (Z.of_nat (size neighbors) = count) && negb (count =? 0)
  then (self, sc_mines sc ∪ neighbors)
  else if (count =? 0) && negb is_mine
  then (foldl mark_safe self (elements neighbors), sc_mines sc)
  else (self, sc_mines sc).

(** The whole body of [add_knowledge], with the method
    [self.mark_mine] of the last loop passed in. *)
Definition add_knowledge_body (mark_mine : t → cell → option t)
    (self : t) (c : cell) (count : Z) (is_mine : bool) : option t :=
  let '(self, mines) := add_knowledge_pass self c count is_mine in
  foldM mark_mine (elements mines) self.

(** [add_knowledge] and [mark_mine] call each other; [depth] bounds
    the depth of the call stack and every call uses one unit. *)
Fixpoint add_knowledge (depth : nat) (self : t) (c : cell) (count : Z) (is_mine : bool)
    {struct depth} : option t :=
  match depth with
  | O => None
  | S d => add_knowledge_body (mark_mine d) self c count is_mine
  end
with mark_mine (depth : nat) (self : t) (c : cell) {struct depth} : option t :=
  match depth with
  | O => None
  | S d => add_knowledge d (set_mines ({[c]} ∪ mines self) self) c 0 true
  end.

(** What [random.sample(population, 1)] does with a set, which is what
    [make_safe_move] hands it.  Up to Python 3.10 the set is made a
    tuple and the element at a random index [pick] is drawn; from
    Python 3.11 on a set is refused with [TypeError]. *)
Inductive sample :=
| Draws (pick : nat)
| Refuses.

(** How a call that may give a move ends: it returns a cell or [None],
    or it raises [TypeError]. *)
Inductive outcome :=
| Returned (move : option cell)
| TypeError.

(** [make_safe_move]: [None] when there is no unexplored safe cell,
    and otherwise [random.sample(unexplored_safes, 1)[0]], with the
    behaviour [random_sample] of the library on a set. *)
Definition make_safe_move (random_sample : sample) (self : t) : outcome :=
  let unexplored_safes := elements (safes self ∖ moves_made self) in
  match unexplored_safes with
  | [] => Returned None
  | _ =>
      match random_sample with
      | Draws pick =>
          Returned (unexplored_safes !! (pick `mod` length unexplored_safes)%nat)
      | Refuses => TypeError
      end
  end.

(** [make_random_move]: first cell of [range(0,7) x range(0,7)] not in
    [moves_made]; [None] when the loops end. *)
Definition make_random_move (self : t) : option cell :=
  head (filter (λ n, n ∉ moves_made self)
               (i ← range 0 7; j ← range 0 7; [(i, j)])).

End MinesweeperAI.

(** ** Driving the agent *)

(** [update(cell, count)]: the board reports [count] for the safely
    opened [cell], that is [add_knowledge(cell, count, False)].  Three
    frames are all the call stack ever needs (see [add_knowledge_depth]). *)
Definition update (self : MinesweeperAI.t) (c : cell) (count : Z)
    : option MinesweeperAI.t :=
  MinesweeperAI.add_knowledge 3 self c count false.

(** The calls a driving loop can make on an agent. *)
Inductive call :=
| Update (c : cell) (count : Z)
| MakeSafeMove (random_sample : MinesweeperAI.sample)
| MakeRandomMove
| MarkMine (c : cell)
| MarkSafe (c : cell).

(** One call: the agent afterwards and how the call ended.  A
    [TypeError] out of [make_safe_move] leaves the agent as it was, and
    the next call finds it so. *)
Definition step (self : MinesweeperAI.t) (k : call)
    : option (MinesweeperAI.t * MinesweeperAI.outcome) :=
  match k with
  | Update c n =>
      self' ← update self c n; Some (self', MinesweeperAI.Returned None)
  | MakeSafeMove random_sample =>
      Some (self, MinesweeperAI.make_safe_move random_sample self)
  | MakeRandomMove =>
      Some (self, MinesweeperAI.Returned (MinesweeperAI.make_random_move self))
  | MarkMine c =>
      self' ← MinesweeperAI.mark_mine 2 self c;
      Some (self', MinesweeperAI.Returned None)
  | MarkSafe c => Some (MinesweeperAI.mark_safe self c, MinesweeperAI.Returned None)
  end.

Definition run : list call → MinesweeperAI.t → option MinesweeperAI.t :=
  foldM (λ self k, fst <$> step self k).

(** ** Reference notions used in the statements *)

(** The neighbour set as the specification words it: every cell within
    one row and one column of [c], excluding [c], clipped to
    [[0, height) x [0, width)]. *)
Definition spec_neighbors (height width : Z) (c : cell) : gset cell :=
  list_to_set
    (filter (λ n : cell, n ≠ c ∧ 0 ≤ n.1 < height ∧ 0 ≤ n.2 < width)
            (Minesweeper.window c)).

(** The cells of the board that hold a mine. *)
Definition mine_set (g : Minesweeper.t) : gset cell :=
  list_to_set
    (filter (λ n : cell, Minesweeper.is_mine g n = true)
            (i ← range 0 (Minesweeper.height g);
             j ← range 0 (Minesweeper.width g);
             [(i, j)])).

(** A move of an honest game on board [g]: an in-range cell without a
    mine is opened and the board's own count is reported. *)
Definition honest (g : Minesweeper.t) (k : cell * Z) : Prop :=
  Minesweeper.in_bounds g k.1.1 k.1.2 = true ∧
  Minesweeper.is_mine g k.1 = false ∧
  k.2 = Minesweeper.nearby_mines g k.1.

Definition play (self : MinesweeperAI.t) (moves : list (cell * Z))
    : option MinesweeperAI.t :=
  foldM (λ s k, update s k.1 k.2) moves self.

(** Soundness of an agent state with respect to the set [B] of true
    mines: what the agent believes is true of [B], sentences that are
    not flagged count the mines among their cells, and the flagged
    sentences are exactly those stored for the known mines. *)
Record sound (B : gset cell) (self : MinesweeperAI.t) : Prop := Sound {
  sound_mines : MinesweeperAI.mines self ⊆ B;
  sound_safes : MinesweeperAI.safes self ## B;
  sound_moves : MinesweeperAI.moves_made self ∩ B ⊆ MinesweeperAI.mines self;
  sound_count : ∀ n s, MinesweeperAI.knowledge self !! n = Some s →
      Sentence.is_mine s = false →
      Sentence.count s = Z.of_nat (size (Sentence.cells s ∩ B));
  sound_flag : ∀ n s, MinesweeperAI.knowledge self !! n = Some s →
      Sentence.is_mine s = true →
      Sentence.count s ≤ 0 ∧ n ∈ MinesweeperAI.mines self
}.

(** Every known mine has its flagged sentence, except possibly [m]
    (the mine being recorded). *)
Definition flagged_except (m : option cell) (self : MinesweeperAI.t) : Prop :=
  ∀ n, n ∈ MinesweeperAI.mines self → Some n ≠ m →
    ∃ s, MinesweeperAI.knowledge self !! n = Some s ∧ Sentence.is_mine s = true.

(** What [mark_mine] and [add_knowledge] compute once the call stack is
    deep enough (see [mark_mine_depth] and [add_knowledge_depth]). *)
Definition mark_mine_result (self : MinesweeperAI.t) (m : cell) : MinesweeperAI.t :=
  (MinesweeperAI.add_knowledge_pass
     (MinesweeperAI.set_mines ({[m]} ∪ MinesweeperAI.mines self) self) m 0 true).1.

Definition add_knowledge_result (self : MinesweeperAI.t) (c : cell) (count : Z)
    (is_mine : bool) : MinesweeperAI.t :=
  let p := MinesweeperAI.add_knowledge_pass self c count is_mine in
  foldl mark_mine_result p.1 (elements p.2).

(** The agent a call leaves, once the call stack is deep enough (see
    [step_result]). *)
Definition after_call (s : MinesweeperAI.t) (k : call) : MinesweeperAI.t :=
  match k with
  | Update c n => add_knowledge_result s c n false
  | MakeSafeMove _ | MakeRandomMove => s
  | MarkMine c => mark_mine_result s c
  | MarkSafe c => MinesweeperAI.mark_safe s c
  end.

(** The three sets of the agent only grow from [s] to [s']. *)
Definition grows (s s' : MinesweeperAI.t) : Prop :=
  MinesweeperAI.moves_made s ⊆ MinesweeperAI.moves_made s' ∧
  MinesweeperAI.safes s ⊆ MinesweeperAI.safes s' ∧
  MinesweeperAI.mines s ⊆ MinesweeperAI.mines s'.

(** What one iteration of the double loop of [add_knowledge] does to the
    sentence stored for the scanned cell, when [c] is the cell of the
    call (see [visit_knowledge]). *)
Definition shrink (c : cell) (is_mine : bool) (t : Sentence.t) : Sentence.t :=
  if decide (c ∈ Sentence.cells t)
  then Sentence.Sentence (Sentence.cells t ∖ {[c]})
         (if is_mine then Sentence.count t - 1 else Sentence.count t)
         (Sentence.is_mine t)
  else t.

(** Row-major order on cells: the order in which two nested [for]
    loops over rows and columns meet them. *)
Definition before (a b : cell) : Prop :=
  a.1 < b.1 ∨ (a.1 = b.1 ∧ a.2 < b.2).

(** The cells the double loop of [add_knowledge] can reach: the first
    coordinate below [width], the second below [height]. *)
Definition in_scan_range (s : MinesweeperAI.t) (c : cell) : Prop :=
  0 ≤ c.1 < MinesweeperAI.width s ∧ 0 ≤ c.2 < MinesweeperAI.height s.

(** A call whose cell, if it has one that is scanned, is in that range
    for an agent of the given height and width. *)
Definition call_in_range (h w : Z) (k : call) : Prop :=
  match k with
  | Update c _ | MarkMine c => 0 ≤ c.1 < w ∧ 0 ≤ c.2 < h
  | MakeSafeMove _ | MakeRandomMove | MarkSafe _ => True
  end.

(** Every stored sentence is in range and is over exactly the scanned
    neighbours of its cell that are neither opened nor known mines. *)
Record exact (s : MinesweeperAI.t) : Prop := Exact {
  exact_keys : ∀ n t, MinesweeperAI.knowledge s !! n = Some t → in_scan_range s n;
  exact_cells : ∀ n t, MinesweeperAI.knowledge s !! n = Some t →
      Sentence.cells t
      = list_to_set (MinesweeperAI.box s n)
          ∖ MinesweeperAI.moves_made s ∖ MinesweeperAI.mines s
}.

(** ** The whole [Minesweeper] object and its constructor *)

Module Game.

(** A [Minesweeper] object: height, width and board ([base]) with the
    sets [mines] and [mines_found]. *)
Record t := Game {
  base : Minesweeper.t;
  mines : gset cell;
  mines_found : gset cell
}.

(** How [__init__] ends: the object is built, [random.randrange]
    raises [ValueError] on an empty range, or the [while] loop is
    still running when the given random draws are used up. *)
Inductive outcome :=
| Built (g : t)
| ValueError
| Looping.

(** The board of [False] that the two nested [for] loops build. *)
Definition empty_board (height width : Z) : list (list bool) :=
  fmap (λ _, fmap (λ _, false) (range 0 width)) (range 0 height).

(** [self.board[i][j] = True] *)
Definition set_true (board : list (list bool)) (i j : Z) : list (list bool) :=
  alter (λ row, <[Z.to_nat j := true]> row) (Z.to_nat i) board.

(** The [while] loop of [__init__]; [draws] are the successive pairs
    [(random.randrange(height), random.randrange(width))]. *)
Fixpoint place_mines (height width target : Z) (draws : list cell)
    (board : list (list bool)) (mines : gset cell) : outcome :=
  if bool_decide (Z.of_nat (size mines) = target)
  then Built (Game (Minesweeper.Minesweeper height width board) mines ∅)
  else if bool_decide (height ≤ 0) || bool_decide (width ≤ 0)
  then ValueError
  else match draws with
       | [] => Looping
       | d :: draws =>
           if Minesweeper.board_at (Minesweeper.Minesweeper height width board) d.1 d.2
           then place_mines height width target draws board mines
           else place_mines height width target draws
                  (set_true board d.1 d.2) ({[d]} ∪ mines)
       end.

(** [__init__(height, width, mines)], [target] being the parameter
    [mines]. *)
Definition init (height width target : Z) (draws : list cell) : outcome :=
  place_mines height width target draws (empty_board height width) ∅.

(** [won]: all mines have been flagged. *)
Definition won (self : t) : bool :=
  bool_decide (mines_found self = mines self).

End Game.

(** A cell of a board of [h] rows and [w] columns. *)
Definition on_board (h w : Z) (c : cell) : Prop := 0 ≤ c.1 < h ∧ 0 ≤ c.2 < w.

(** ** The older copy of the file *)

Module Copy.

(** What ends up where a cell is expected: a cell, or a bare integer
    (a coordinate taken for a cell, see [new_sentence]). *)
Inductive value :=
| Int (z : Z)
| Cell (c : cell).

#[global] Instance value_eq_dec : EqDecision value.
Proof. solve_decision. Defined.

#[global] Instance value_countable : Countable value :=
  inj_countable'
    (λ v, match v with Int z => inl z | Cell c => inr c end)
    (λ s, match s with inl z => Int z | inr c => Cell c end)
    (λ v, match v with Int _ => eq_refl | Cell _ => eq_refl end).

Record sentence := Sentence {
  cells : gset value;
  count : Z;
  is_mine : bool
}.

(** [Sentence(cell, count, is_mine)] as [add_knowledge] calls it:
    [set(cells)] of the tuple [cell] is the set of its two coordinates,
    and [__init__] stores [False] for [is_mine]. *)
Definition new_sentence (c : cell) (count : Z) (is_mine : bool) : sentence :=
  Sentence {[ Int c.1; Int c.2 ]} count false.

Definition set_cells (v : gset value) (self : sentence) : sentence :=
  Sentence v (count self) (is_mine self).
Definition set_count (v : Z) (self : sentence) : sentence :=
  Sentence (cells self) v (is_mine self).

Record t := MinesweeperAI {
  height : Z;
  width : Z;
  moves_made : gset value;
  mines : gset value;
  safes : gset value;
  knowledge : gmap cell sentence
}.

Definition init (height width : Z) : t :=
  MinesweeperAI height width ∅ ∅ ∅ ∅.

Definition set_moves_made (v : gset value) (self : t) : t :=
  MinesweeperAI (height self) (width self) v (mines self) (safes self) (knowledge self).
Definition set_mines (v : gset value) (self : t) : t :=
  MinesweeperAI (height self) (width self) (moves_made self) v (safes self) (knowledge self).
Definition set_safes (v : gset value) (self : t) : t :=
  MinesweeperAI (height self) (width self) (moves_made self) (mines self) v (knowledge self).
Definition set_knowledge (v : gmap cell sentence) (self : t) : t :=
  MinesweeperAI (height self) (width self) (moves_made self) (mines self) (safes self) v.

(** How a call ends; the agent is mutated in place, so what was done
    before a [TypeError] stays done. *)
Inductive outcome :=
| Returned
| TypeError.

(** A [for] loop whose body may raise: the first exception ends it. *)
Definition for_each {S A : Type} (body : S → A → option (S * outcome))
    : list A → S → option (S * outcome) :=
  fix go l s :=
    match l with
    | [] => Some (s, Returned)
    | a :: l =>
        match body s a with
        | Some (s', Returned) => go l s'
        | r => r
        end
    end.

Definition mark_safe (self : t) (v : value) : t :=
  set_safes ({[v]} ∪ safes self) self.

Definition box (self : t) (c : cell) : list cell :=
  let '(x, y) := c in
  i ← range (Z.max 0 (x - 1)) (Z.min (width self) (x + 2));
  j ← range (Z.max 0 (y - 1)) (Z.min (height self) (y + 2));
  [(i, j)].

(** One iteration of the double loop of [add_knowledge]; the state is
    the agent and the local set [neighbors].  [iter] is the order in
    which Python walks a set. *)
Definition visit (iter : gset value → list value)
    (mark_mine : t → value → option (t * outcome))
    (c : cell) (is_mine : bool) (sc : t * gset value) (n : cell)
    : option ((t * gset value) * outcome) :=
  let self := sc.1 in
  let neighbors := {[Cell n]} ∪ sc.2 in
  if decide (n = c) then Some ((self, neighbors), Returned)
  else
    match knowledge self !! n with
    | None => Some ((self, neighbors), Returned)
    | Some sentence =>
        let sentence :=
          if decide (Cell c ∈ cells sentence)
          then set_cells (cells sentence ∖ {[Cell c]}) sentence
          else sentence in
        let self := set_knowledge (<[n := sentence]> (knowledge self)) self in
        if bool_decide (Z.of_nat (size (cells sentence)) = count sentence)
        then
          match for_each mark_mine (iter (cells sentence)) self with
          | Some (self, o) => Some ((self, neighbors), o)
          | None => None
          end
        else if is_mine
        then
          let sentence := set_count (count sentence - 1) sentence in
          Some ((set_knowledge (<[n := sentence]> (knowledge self)) self, neighbors),
                Returned)
        else Some ((self, neighbors), Returned)
    end.

(** The body of [add_knowledge], with the method [self.mark_mine] it
    calls passed in.  The parameter [is_mine] is overwritten with
    [False] before it is read. *)
Definition add_knowledge_body (iter : gset value → list value)
    (mark_mine : t → value → option (t * outcome))
    (self : t) (v : value) (count : Z) (is_mine : bool) : option (t * outcome) :=
  let self := set_moves_made ({[v]} ∪ moves_made self) self in
  let self := mark_safe self v in
  let is_mine := false in
  match v with
  | Int _ => Some (self, TypeError)
  | Cell c =>
      match for_each (visit iter mark_mine c is_mine) (box self c) (self, ∅) with
      | None => None
      | Some ((self, _), TypeError) => Some (self, TypeError)
      | Some ((self, neighbors), Returned) =>
          let neighbors := neighbors ∖ safes self ∖ mines self in
          let self := set_knowledge
                        (<[c := new_sentence c count is_mine]> (knowledge self)) self in
          if bool_decide (Z.of_nat (size neighbors) = count)
          then for_each mark_mine (iter neighbors) self
          else if count =? 0
          then Some (foldl mark_safe self (iter neighbors), Returned)
          else Some (self, Returned)
      end
  end.

(** [add_knowledge] and [mark_mine] call each other; [depth] bounds
    the depth of the call stack. *)
Fixpoint add_knowledge (iter : gset value → list value) (depth : nat)
    (self : t) (v : value) (count : Z) (is_mine : bool)
    {struct depth} : option (t * outcome) :=
  match depth with
  | O => None
  | S d => add_knowledge_body iter (mark_mine iter d) self v count is_mine
  end
with mark_mine (iter : gset value → list value) (depth : nat)
    (self : t) (v : value) {struct depth} : option (t * outcome) :=
  match depth with
  | O => None
  | S d => add_knowledge iter d (set_mines ({[v]} ∪ mines self) self) v (-1) true
  end.

(** [make_random_move] of the copy: [range(1,5) x range(1,5)]. *)
Definition make_random_move (self : t) : option cell :=
  head (filter (λ n, Cell n ∉ moves_made self)
               (i ← range 1 5; j ← range 1 5; [(i, j)])).

End Copy.

(** Every stored sentence of the copy is over the two coordinates of
    its own cell. *)
Definition coords (s : Copy.t) : Prop :=
  ∀ n t, Copy.knowledge s !! n = Some t →
    Copy.cells t = {[ Copy.Int n.1; Copy.Int n.2 ]}.

(** From [s] to [s'] the copy only adds: the three sets and the keys of
    the dictionary grow, the dimensions stay, and what is added to
    [moves_made] is added to [safes] too. *)
Record extends (s s' : Copy.t) : Prop := Extends {
  ext_height : Copy.height s' = Copy.height s;
  ext_width : Copy.width s' = Copy.width s;
  ext_moves : Copy.moves_made s ⊆ Copy.moves_made s';
  ext_mines : Copy.mines s ⊆ Copy.mines s';
  ext_safes : Copy.safes s ⊆ Copy.safes s';
  ext_new : Copy.moves_made s' ∖ Copy.moves_made s ⊆ Copy.safes s';
  ext_keys : dom (Copy.knowledge s) ⊆ dom (Copy.knowledge s')
}.

(** A scanned sentence whose count is the number of its cells: in the
    copy it makes [add_knowledge] mark those cells as mines. *)
Definition trigger (s : Copy.t) (c n : cell) : Prop :=
  n ≠ c ∧ ∃ t, Copy.knowledge s !! n = Some t ∧
    Z.of_nat (size (Copy.cells t)) = Copy.count t.

(** What the last loop of the copy's [add_knowledge] needs from
    [mark_mine] at call depth [d]: it comes to an end on every list of
    values and leaves the sentence of [c] alone. *)
Definition final_ok (iter : gset Copy.value → list Copy.value) (d : nat) (c : cell)
    : Prop :=
  ∀ s1 l, coords s1 → Copy.Cell c ∉ l →
    ∃ s2 o2, Copy.for_each (Copy.mark_mine iter d) l s1 = Some (s2, o2) ∧
      extends s1 s2 ∧ coords s2 ∧
      Copy.knowledge s2 !! c = Copy.knowledge s1 !! c.

(** * Properties *)

Import MinesweeperAI.

(** ** Ranges and the scanned box *)

Lemma elem_of_range (a b i : Z) : i ∈ range a b ↔ a ≤ i < b.
Proof. unfold range. rewrite elem_of_seqZ. lia. Qed.

Lemma NoDup_range (a b : Z) : NoDup (range a b).
Proof. apply NoDup_seqZ. Qed.

Lemma elem_of_grid (li lj : list Z) (n : cell) :
  n ∈ (i ← li; j ← lj; [(i, j)]) ↔ n.1 ∈ li ∧ n.2 ∈ lj.
Proof.
  destruct n as [a b]. rewrite list_elem_of_bind. split.
  - intros (i & Hj & Hi). apply list_elem_of_bind in Hj as (j & Hn & Hj).
    apply list_elem_of_singleton in Hn. by simplify_eq.
  - intros [Ha Hb]. exists a. split; [|done].
    apply list_elem_of_bind. exists b. split; [|done].
    by apply list_elem_of_singleton.
Qed.

Lemma NoDup_grid (li lj : list Z) :
  NoDup li → NoDup lj → NoDup (i ← li; j ← lj; [(i, j)]).
Proof.
  intros Hi Hj. induction Hi as [|i li Hni Hi IH]; [constructor|].
  simpl. apply NoDup_app. split_and!.
  - clear -Hj. induction Hj as [|j lj Hnj Hj IH]; [constructor|].
    simpl. constructor; [|done].
    intros Hin. apply list_elem_of_bind in Hin as (j' & Hn & Hj').
    apply list_elem_of_singleton in Hn. by simplify_eq.
  - intros n Hn1 Hn2.
    apply list_elem_of_bind in Hn1 as (j & Hn & _).
    apply list_elem_of_singleton in Hn. subst n.
    apply elem_of_grid in Hn2 as [Hn2 _]. done.
  - done.
Qed.

Lemma elem_of_box (self : t) (c n : cell) :
  n ∈ box self c ↔
    Z.max 0 (c.1 - 1) ≤ n.1 < Z.min (width self) (c.1 + 2) ∧
    Z.max 0 (c.2 - 1) ≤ n.2 < Z.min (height self) (c.2 + 2).
Proof.
  destruct c as [x y]. unfold box. rewrite elem_of_grid, !elem_of_range. done.
Qed.

Lemma NoDup_box (self : t) (c : cell) : NoDup (box self c).
Proof. destruct c as [x y]. apply NoDup_grid; apply NoDup_range. Qed.

Lemma elem_of_window (c n : cell) :
  n ∈ Minesweeper.window c ↔ c.1 - 1 ≤ n.1 < c.1 + 2 ∧ c.2 - 1 ≤ n.2 < c.2 + 2.
Proof. unfold Minesweeper.window. rewrite elem_of_grid, !elem_of_range. done. Qed.

Lemma NoDup_window (c : cell) : NoDup (Minesweeper.window c).
Proof. apply NoDup_grid; apply NoDup_range. Qed.

(** ** [mark_safe] over a set *)

Lemma foldl_mark_safe (l : list cell) (self : t) :
  foldl mark_safe self l = set_safes (list_to_set l ∪ safes self) self.
Proof.
  revert self. induction l as [|a l IH]; intros self; simpl.
  - destruct self; unfold set_safes; simpl. f_equal. set_solver.
  - rewrite IH. unfold mark_safe, set_safes; simpl. f_equal. set_solver.
Qed.

Lemma mark_safe_all (X : gset cell) (self : t) :
  foldl mark_safe self (elements X) = set_safes (X ∪ safes self) self.
Proof. rewrite foldl_mark_safe. by rewrite list_to_set_elements_L. Qed.

(** ** What the double loop leaves alone *)

Lemma visit_frame (c : cell) (b : bool) (sc : scan) (n : cell) :
  let sc' := visit c b sc n in
  moves_made (sc_self sc') = moves_made (sc_self sc) ∧
  mines (sc_self sc') = mines (sc_self sc) ∧
  height (sc_self sc') = height (sc_self sc) ∧
  width (sc_self sc') = width (sc_self sc) ∧
  safes (sc_self sc) ⊆ safes (sc_self sc') ∧
  sc_neighbors sc' = {[n]} ∪ sc_neighbors sc ∧
  sc_mines sc ⊆ sc_mines sc'.
Proof.
  unfold visit. destruct (knowledge (sc_self sc) !! n) as [s|]; [|done].
  destruct (decide (c ∈ Sentence.cells s)); [|done].
  destruct b; simpl.
  - destruct (Sentence.count s - 1 =? 0); [|done].
    rewrite mark_safe_all. simpl. split_and!; try done. set_solver.
  - split_and!; try done. case_match; set_solver.
Qed.

Lemma scan_frame (c : cell) (b : bool) (l : list cell) (sc : scan) :
  let sc' := foldl (visit c b) sc l in
  moves_made (sc_self sc') = moves_made (sc_self sc) ∧
  mines (sc_self sc') = mines (sc_self sc) ∧
  height (sc_self sc') = height (sc_self sc) ∧
  width (sc_self sc') = width (sc_self sc) ∧
  safes (sc_self sc) ⊆ safes (sc_self sc') ∧
  sc_neighbors sc' = list_to_set l ∪ sc_neighbors sc ∧
  sc_mines sc ⊆ sc_mines sc'.
Proof.
  revert sc. induction l as [|n l IH]; intros sc; simpl.
  - split_and!; try done. set_solver.
  - destruct (IH (visit c b sc n)) as (-> & -> & -> & -> & Hs & -> & Hm).
    destruct (visit_frame c b sc n) as (-> & -> & -> & -> & Hs' & -> & Hm').
    split_and!; try done; set_solver.
Qed.

(** Recording a mine ([is_mine] true) never fills the local set
    [mines], and a count of zero stays zero. *)
Lemma visit_mine (c : cell) (sc : scan) (n : cell) :
  sc_count sc = 0 →
  sc_mines (visit c true sc n) = sc_mines sc ∧ sc_count (visit c true sc n) = 0.
Proof.
  intros H0. unfold visit. rewrite H0.
  destruct (knowledge (sc_self sc) !! n) as [s|]; [|done].
  destruct (decide (c ∈ Sentence.cells s)); simpl; by destruct (Sentence.is_mine s).
Qed.

Lemma scan_mine (c : cell) (l : list cell) (sc : scan) :
  sc_count sc = 0 →
  sc_mines (foldl (visit c true) sc l) = sc_mines sc ∧
  sc_count (foldl (visit c true) sc l) = 0.
Proof.
  revert sc. induction l as [|n l IH]; intros sc H0; simpl; [done|].
  destruct (visit_mine c sc n H0) as [Hm Hc].
  destruct (IH _ Hc) as [-> ->]. done.
Qed.

Lemma pass_mine_none (self : t) (c : cell) :
  (add_knowledge_pass self c 0 true).2 = ∅.
Proof.
  unfold add_knowledge_pass.
  match goal with |- context [foldl ?f ?a ?l] =>
    destruct (scan_mine c l a eq_refl) as [Hm Hc] end.
  rewrite Hc, Hm. simpl. rewrite andb_false_r. done.
Qed.

Lemma pass_frame (self : t) (c : cell) (count : Z) (b : bool) :
  let p := add_knowledge_pass self c count b in
  moves_made p.1 = {[c]} ∪ moves_made self ∧
  mines p.1 = mines self ∧
  height p.1 = height self ∧
  width p.1 = width self ∧
  safes self ⊆ safes p.1.
Proof.
  unfold add_knowledge_pass.
  match goal with |- context [foldl ?f ?a ?l] =>
    destruct (scan_frame c b l a) as (Hmv & Hmi & Hh & Hw & Hs & _);
    set (sc := foldl f a l) in * end.
  simpl in *. repeat case_match; simpl; rewrite ?mark_safe_all; simpl;
    split_and!; try done; set_solver.
Qed.

(** ** The call stack: three frames are enough *)

Lemma foldM_total {A B : Type} (f : A → B → option A) (g : A → B → A)
    (l : list B) (a : A) :
  (∀ a b, f a b = Some (g a b)) → foldM f l a = Some (foldl g a l).
Proof.
  intros Hf. revert a. induction l as [|b l IH]; intros a; simpl; [done|].
  rewrite Hf. apply IH.
Qed.

Lemma mark_mine_depth (d : nat) (self : t) (m : cell) :
  mark_mine (S (S d)) self m = Some (mark_mine_result self m).
Proof.
  simpl. unfold add_knowledge_body, mark_mine_result.
  pose proof (pass_mine_none (set_mines ({[m]} ∪ mines self) self) m) as Hnone.
  destruct (add_knowledge_pass _ m 0 true) as [s ms]. simpl in *. subst ms.
  rewrite elements_empty. done.
Qed.

Lemma add_knowledge_depth (d : nat) (self : t) (c : cell) (count : Z) (b : bool) :
  add_knowledge (S (S (S d))) self c count b
  = Some (add_knowledge_result self c count b).
Proof.
  change (add_knowledge (S (S (S d))) self c count b)
    with (add_knowledge_body (mark_mine (S (S d))) self c count b).
  unfold add_knowledge_body, add_knowledge_result.
  destruct (add_knowledge_pass self c count b) as [s ms]. simpl.
  apply foldM_total. intros a m. apply mark_mine_depth.
Qed.

Lemma update_result (self : t) (c : cell) (count : Z) :
  update self c count = Some (add_knowledge_result self c count false).
Proof. apply (add_knowledge_depth 0). Qed.

(** ** The sets only grow *)

Lemma grows_refl (s : t) : grows s s.
Proof. by unfold grows. Qed.

Lemma grows_trans (s1 s2 s3 : t) : grows s1 s2 → grows s2 s3 → grows s1 s3.
Proof. unfold grows. set_solver. Qed.

Lemma mark_safe_grows (s : t) (c : cell) : grows s (mark_safe s c).
Proof. unfold grows, mark_safe; simpl. set_solver. Qed.

Lemma pass_grows (s : t) (c : cell) (count : Z) (b : bool) :
  grows s (add_knowledge_pass s c count b).1.
Proof.
  destruct (pass_frame s c count b) as (Hmv & Hmi & _ & _ & Hs).
  unfold grows. rewrite Hmv, Hmi. set_solver.
Qed.

Lemma mark_mine_result_grows (s : t) (m : cell) : grows s (mark_mine_result s m).
Proof.
  unfold mark_mine_result.
  eapply grows_trans; [|apply pass_grows].
  unfold grows; simpl. set_solver.
Qed.

Lemma foldl_grows {B : Type} (f : t → B → t) (l : list B) (s : t) :
  (∀ s b, grows s (f s b)) → grows s (foldl f s l).
Proof.
  intros Hf. revert s. induction l as [|b l IH]; intros s; simpl.
  - apply grows_refl.
  - eapply grows_trans; [apply Hf | apply IH].
Qed.

Lemma add_knowledge_result_grows (s : t) (c : cell) (count : Z) (b : bool) :
  grows s (add_knowledge_result s c count b).
Proof.
  unfold add_knowledge_result.
  eapply grows_trans; [apply pass_grows|].
  apply foldl_grows, mark_mine_result_grows.
Qed.

Lemma step_result (s : t) (k : call) :
  fst <$> step s k = Some (after_call s k).
Proof.
  destruct k as [c n|pick| |c|c]; unfold step; try done.
  - by rewrite update_result.
  - by rewrite (mark_mine_depth 0).
Qed.

Lemma after_call_grows (s : t) (k : call) : grows s (after_call s k).
Proof.
  destruct k as [c n|pick| |c|c]; simpl.
  - apply add_knowledge_result_grows.
  - apply grows_refl.
  - apply grows_refl.
  - apply mark_mine_result_grows.
  - apply mark_safe_grows.
Qed.

Lemma run_result (calls : list call) (s : t) :
  run calls s = Some (foldl after_call s calls).
Proof. apply foldM_total, step_result. Qed.

Lemma play_result (moves : list (cell * Z)) (s : t) :
  play s moves = Some (foldl (λ s k, add_knowledge_result s k.1 k.2 false) s moves).
Proof. apply foldM_total. intros a k. apply update_result. Qed.

(** ** Counting the mines among a set of cells *)

Lemma size_inter_full (X B : gset cell) :
  size (X ∩ B) = size X → X ⊆ B.
Proof.
  intros Hsz.
  assert (X ∩ B = X) as Heq.
  { apply set_subseteq_size_eq; [set_solver | lia]. }
  set_solver.
Qed.

Lemma size_inter_none (X B : gset cell) :
  size (X ∩ B) = 0%nat → X ## B.
Proof. intros Hsz%size_empty_inv. set_solver. Qed.

Lemma size_remove_mine (X B : gset cell) (m : cell) :
  m ∈ X → m ∈ B →
  Z.of_nat (size ((X ∖ {[m]}) ∩ B)) = Z.of_nat (size (X ∩ B)) - 1.
Proof.
  intros HX HB.
  assert ((X ∖ {[m]}) ∩ B = (X ∩ B) ∖ {[m]}) as -> by set_solver.
  rewrite size_difference by set_solver. rewrite size_singleton.
  assert (size ({[m]} : gset cell) ≤ size (X ∩ B))%nat as Hle.
  { apply subseteq_size. set_solver. }
  rewrite size_singleton in Hle. lia.
Qed.

Lemma size_remove_safe (X B : gset cell) (c : cell) :
  c ∉ B → (X ∖ {[c]}) ∩ B = X ∩ B.
Proof. set_solver. Qed.

(** ** Soundness of the engine against a set of true mines *)

Lemma visit_flags (c : cell) (b : bool) (sc : scan) (n n' : cell) :
  Sentence.is_mine <$> knowledge (sc_self (visit c b sc n)) !! n'
  = Sentence.is_mine <$> knowledge (sc_self sc) !! n'.
Proof.
  unfold visit. destruct (knowledge (sc_self sc) !! n) as [s|] eqn:Hn; [|done].
  destruct (decide (c ∈ Sentence.cells s)); [|done].
  destruct b; simpl.
  - destruct (Sentence.count s - 1 =? 0); rewrite ?mark_safe_all; simpl;
      (destruct (decide (n = n')) as [->|Hne];
       [rewrite lookup_insert_eq, Hn; done | rewrite lookup_insert_ne by done; done]).
  - destruct (decide (n = n')) as [->|Hne];
      [rewrite lookup_insert_eq, Hn; done | rewrite lookup_insert_ne by done; done].
Qed.

Lemma visit_count (c : cell) (b : bool) (sc : scan) (n : cell) :
  sc_count (visit c b sc n)
  = match knowledge (sc_self sc) !! n with
    | Some s =>
        if Sentence.is_mine s
        then (if sc_count sc =? 0 then sc_count sc else sc_count sc - 1)
        else sc_count sc
    | None => sc_count sc
    end.
Proof.
  unfold visit. destruct (knowledge (sc_self sc) !! n) as [s|]; [|done].
  destruct (decide (c ∈ Sentence.cells s)); [|done]. by destruct b.
Qed.

Lemma visit_flagged_except (c : cell) (b : bool) (sc : scan) (n : cell)
    (m : option cell) :
  flagged_except m (sc_self sc) → flagged_except m (sc_self (visit c b sc n)).
Proof.
  intros Hfl n' Hn' Hne.
  destruct (visit_frame c b sc n) as (_ & Hmi & _). simpl in Hmi.
  rewrite Hmi in Hn'. destruct (Hfl n' Hn' Hne) as (s & Hs & Hflag).
  pose proof (visit_flags c b sc n n') as Hfl'. rewrite Hs in Hfl'. simpl in Hfl'.
  destruct (knowledge (sc_self (visit c b sc n)) !! n') as [s'|]; [|done].
  exists s'. split; [done|]. simpl in Hfl'. congruence.
Qed.

Section soundness.
Context (B : gset cell).

(** Opening a cell without a mine: the sentence of a scanned cell
    loses the opened cell and keeps its count. *)
Lemma visit_update_sound (c : cell) (sc : scan) (n : cell) :
  c ∉ B → sound B (sc_self sc) → sc_mines sc ⊆ B →
  sound B (sc_self (visit c false sc n)) ∧ sc_mines (visit c false sc n) ⊆ B.
Proof.
  intros Hc [H1 H2 H3 H4 H5] Hms. unfold visit.
  destruct (knowledge (sc_self sc) !! n) as [s|] eqn:Hn; [|by split].
  destruct (decide (c ∈ Sentence.cells s)) as [Hin|]; [|by split].
  simpl. split.
  - split; simpl; try done.
    + intros n' s' Hs' Hflag. destruct (decide (n = n')) as [->|Hne].
      * rewrite lookup_insert_eq in Hs'. injection Hs' as <-. simpl in *.
        rewrite size_remove_safe by done. by eapply H4.
      * rewrite lookup_insert_ne in Hs' by done. by eapply H4.
    + intros n' s' Hs' Hflag. destruct (decide (n = n')) as [->|Hne].
      * rewrite lookup_insert_eq in Hs'. injection Hs' as <-. simpl in *.
        by eapply H5.
      * rewrite lookup_insert_ne in Hs' by done. by eapply H5.
  - case_match eqn:Hfull; [|done].
    apply andb_true_iff in Hfull as [Hsz%bool_decide_eq_true Hpos%bool_decide_eq_true].
    simpl in *. apply union_least; [done|].
    destruct (Sentence.is_mine s) eqn:Hflag.
    + destruct (H5 n s Hn Hflag) as [Hle _]. lia.
    + apply size_inter_full. rewrite size_remove_safe by done.
      pose proof (H4 n s Hn Hflag) as Hcount.
      assert (size (Sentence.cells s ∖ {[c]} ∩ B) ≤ size (Sentence.cells s ∖ {[c]}))%nat
        by (apply subseteq_size; set_solver).
      rewrite size_remove_safe in * by done. lia.
Qed.

(** Recording a mine: the sentence of a scanned cell loses the mine
    and one unit of its count; a count that reaches zero makes the
    remaining cells safe. *)
Lemma visit_mine_sound (m : cell) (sc : scan) (n : cell) :
  m ∈ B → sound B (sc_self sc) → sound B (sc_self (visit m true sc n)).
Proof.
  intros Hm [H1 H2 H3 H4 H5]. unfold visit.
  destruct (knowledge (sc_self sc) !! n) as [s|] eqn:Hn; [|by split].
  destruct (decide (m ∈ Sentence.cells s)) as [Hin|]; [|by split].
  simpl.
  assert (∀ self', moves_made self' = moves_made (sc_self sc) →
            mines self' = mines (sc_self sc) →
            knowledge self' = <[n:=Sentence.set_count (Sentence.count s - 1)
                 (Sentence.set_cells (Sentence.cells s ∖ {[m]}) s)]> (knowledge (sc_self sc)) →
            safes self' ## B → sound B self') as Hgen.
  { intros self' Hmv Hmi HK Hsafe. split; rewrite ?Hmv, ?Hmi, ?HK; try done.
    - intros n' s' Hs' Hflag. destruct (decide (n = n')) as [->|Hne].
      + rewrite lookup_insert_eq in Hs'. injection Hs' as <-. simpl in *.
        rewrite size_remove_mine by done. rewrite <- (H4 n' s) by done. done.
      + rewrite lookup_insert_ne in Hs' by done. by eapply H4.
    - intros n' s' Hs' Hflag. destruct (decide (n = n')) as [->|Hne].
      + rewrite lookup_insert_eq in Hs'. injection Hs' as <-. simpl in *.
        destruct (H5 n' s Hn Hflag). split; [lia|done].
      + rewrite lookup_insert_ne in Hs' by done. by eapply H5. }
  destruct (Sentence.count s - 1 =? 0) eqn:Hz.
  - rewrite mark_safe_all. apply Hgen; simpl; try done.
    apply Z.eqb_eq in Hz.
    destruct (Sentence.is_mine s) eqn:Hflag.
    + destruct (H5 n s Hn Hflag) as [Hle _]. lia.
    + pose proof (H4 n s Hn Hflag) as Hcount.
      pose proof (size_remove_mine (Sentence.cells s) B m Hin Hm) as Hrm.
      apply disjoint_union_l. split; [|done].
      apply size_inter_none. lia.
  - apply Hgen; simpl; done.
Qed.

(** The whole scan while a mine is recorded. *)
Lemma scan_mine_sound (m : cell) (l : list cell) (sc : scan) :
  m ∈ B → sound B (sc_self sc) → flagged_except (Some m) (sc_self sc) →
  sound B (sc_self (foldl (visit m true) sc l)) ∧
  flagged_except (Some m) (sc_self (foldl (visit m true) sc l)).
Proof.
  intros Hm. revert sc. induction l as [|n l IH]; intros sc Hs Hfl; simpl; [done|].
  apply IH; [by apply visit_mine_sound | by apply visit_flagged_except].
Qed.

(** The whole scan while a cell without a mine is opened: the count
    drops by the number of scanned cells that are known mines. *)
Lemma scan_update_sound (c : cell) (l : list cell) (sc : scan) :
  c ∉ B → NoDup l →
  sound B (sc_self sc) → flagged_except None (sc_self sc) → sc_mines sc ⊆ B →
  Z.of_nat (size (list_to_set l ∩ mines (sc_self sc))) ≤ sc_count sc →
  let sc' := foldl (visit c false) sc l in
  sound B (sc_self sc') ∧ flagged_except None (sc_self sc') ∧ sc_mines sc' ⊆ B ∧
  sc_count sc' = sc_count sc - Z.of_nat (size (list_to_set l ∩ mines (sc_self sc))).
Proof.
  intros Hc Hnd. revert sc.
  induction Hnd as [|n l Hn Hnd IH]; intros sc Hs Hfl Hms Hle; simpl.
  { split_and!; try done.
    replace (∅ ∩ mines (sc_self sc)) with (∅ : gset cell) by set_solver.
    rewrite size_empty. lia. }
  destruct (visit_update_sound c sc n Hc Hs Hms) as [Hs' Hms'].
  pose proof (visit_flagged_except c false sc n None Hfl) as Hfl'.
  destruct (visit_frame c false sc n) as (_ & Hmi & _). simpl in Hmi.
  pose proof (visit_count c false sc n) as Hcnt.
  simpl in Hle.
  assert (list_to_set l ∩ mines (sc_self sc) ⊆ ({[n]} ∪ list_to_set l) ∩ mines (sc_self sc))
    as Hsub by set_solver.
  destruct (decide (n ∈ mines (sc_self sc))) as [Hin|Hnin].
  - (* a known mine: its sentence is flagged and the count drops *)
    destruct (Hfl n Hin) as (s & Hk & Hflag); [done|].
    rewrite Hk, Hflag in Hcnt.
    assert (({[n]} ∪ list_to_set l) ∩ mines (sc_self sc)
            = {[n]} ∪ (list_to_set l ∩ mines (sc_self sc))) as Heq by set_solver.
    rewrite Heq in Hle |- *.
    rewrite size_union in Hle |- * by set_solver.
    rewrite size_singleton in Hle |- *.
    destruct (sc_count sc =? 0) eqn:Hz; [apply Z.eqb_eq in Hz; lia|].
    destruct (IH (visit c false sc n)) as (? & ? & ? & Hfin); try done.
    { rewrite Hmi, Hcnt. lia. }
    split_and!; try done. rewrite Hfin, Hmi, Hcnt. lia.
  - (* not a known mine: no flagged sentence, the count stays *)
    assert (sc_count (visit c false sc n) = sc_count sc) as Hcnt'.
    { rewrite Hcnt. destruct (knowledge (sc_self sc) !! n) as [s|] eqn:Hk; [|done].
      destruct (Sentence.is_mine s) eqn:Hflag; [|done].
      destruct Hs as [_ _ _ _ H5]. destruct (H5 n s Hk Hflag). done. }
    assert (({[n]} ∪ list_to_set l) ∩ mines (sc_self sc)
            = list_to_set l ∩ mines (sc_self sc)) as Heq by set_solver.
    rewrite Heq in Hle |- *.
    destruct (IH (visit c false sc n)) as (? & ? & ? & Hfin); try done.
    { rewrite Hmi, Hcnt'. lia. }
    split_and!; try done. rewrite Hfin, Hmi, Hcnt'. lia.
Qed.

Lemma sound_moves_add (s : t) (c : cell) :
  (c ∈ B → c ∈ mines s) → sound B s →
  sound B (set_moves_made ({[c]} ∪ moves_made s) s).
Proof.
  intros Hc [H1 H2 H3 H4 H5]. split; simpl; try done. set_solver.
Qed.

(** [add_knowledge(m, 0, True)] for a true mine already in [mines]. *)
Lemma pass_mine_sound (s : t) (m : cell) :
  m ∈ B → m ∈ mines s → sound B s → flagged_except (Some m) s →
  sound B (add_knowledge_pass s m 0 true).1 ∧
  flagged_except None (add_knowledge_pass s m 0 true).1.
Proof.
  intros Hm Hin Hs Hfl. unfold add_knowledge_pass.
  set (s0 := set_moves_made ({[m]} ∪ moves_made s) s).
  set (sc0 := Scan s0 ∅ ∅ 0).
  assert (sound B (sc_self sc0)) as Hs0 by (by apply sound_moves_add).
  assert (flagged_except (Some m) (sc_self sc0)) as Hfl0 by done.
  destruct (scan_mine_sound m (box s0 m) sc0 Hm Hs0 Hfl0) as [[H1 H2 H3 H4 H5] Hfl1].
  destruct (scan_mine m (box s0 m) sc0 eq_refl) as [_ Hc].
  destruct (scan_frame m true (box s0 m) sc0) as (_ & Hmi & _). simpl in Hmi.
  set (sc := foldl (visit m true) sc0 (box s0 m)) in *.
  rewrite Hc. simpl. rewrite andb_false_r. simpl. split.
  - split; simpl; try done.
    + intros n s' Hs' Hflag. destruct (decide (m = n)) as [->|Hne].
      * rewrite lookup_insert_eq in Hs'. by injection Hs' as <-.
      * rewrite lookup_insert_ne in Hs' by done. by eapply H4.
    + intros n s' Hs' Hflag. destruct (decide (m = n)) as [->|Hne].
      * rewrite lookup_insert_eq in Hs'. injection Hs' as <-. simpl.
        split; [lia|]. by rewrite Hmi.
      * rewrite lookup_insert_ne in Hs' by done. by eapply H5.
  - intros n Hn _. simpl in *. destruct (decide (m = n)) as [->|Hne].
    + rewrite lookup_insert_eq. by eexists.
    + rewrite lookup_insert_ne by done. apply Hfl1; [done|congruence].
Qed.

Lemma mark_mine_result_sound (s : t) (m : cell) :
  m ∈ B → sound B s → flagged_except None s →
  sound B (mark_mine_result s m) ∧ flagged_except None (mark_mine_result s m).
Proof.
  intros Hm [H1 H2 H3 H4 H5] Hfl. unfold mark_mine_result.
  apply pass_mine_sound; simpl; [done|set_solver| |].
  - split; simpl; try done; [set_solver|set_solver|].
    intros n s' Hs' Hflag. destruct (H5 n s' Hs' Hflag). split; [done|set_solver].
  - intros n Hn Hne. apply Hfl; [|done]. simpl in Hn.
    apply elem_of_union in Hn as [->%elem_of_singleton|Hn]; done.
Qed.

Lemma record_mines_sound (l : list cell) (s : t) :
  (∀ m, m ∈ l → m ∈ B) → sound B s → flagged_except None s →
  sound B (foldl mark_mine_result s l) ∧
  flagged_except None (foldl mark_mine_result s l).
Proof.
  revert s. induction l as [|m l IH]; intros s Hl Hs Hfl; simpl; [done|].
  destruct (mark_mine_result_sound s m) as [Hs' Hfl']; try done.
  { apply Hl. left. }
  apply IH; try done. intros m' Hm'. apply Hl. by right.
Qed.

(** [add_knowledge(c, count, False)] for a cell without a mine whose
    [count] is the number of true mines in the scanned box. *)
Lemma pass_update_sound (s : t) (c : cell) (count : Z) :
  c ∉ B → sound B s → flagged_except None s →
  count = Z.of_nat (size (list_to_set (box s c) ∩ B)) →
  let p := add_knowledge_pass s c count false in
  sound B p.1 ∧ flagged_except None p.1 ∧ p.2 ⊆ B.
Proof.
  intros Hc Hs Hfl Hcount. unfold add_knowledge_pass.
  set (s0 := set_moves_made ({[c]} ∪ moves_made s) s).
  change (box s0 c) with (box s c).
  set (sc0 := Scan s0 ∅ ∅ count).
  assert (sound B (sc_self sc0)) as Hs0 by (by apply sound_moves_add).
  assert (flagged_except None (sc_self sc0)) as Hfl0 by done.
  assert (mines s ⊆ B) as HmB by apply Hs.
  destruct (scan_update_sound c (box s c) sc0 Hc (NoDup_box s c) Hs0 Hfl0)
    as ([H1 H2 H3 H4 H5] & Hfl1 & Hms & Hcnt); [done| |].
  { simpl. rewrite Hcount. apply inj_le, subseteq_size. set_solver. }
  destruct (scan_frame c false (box s c) sc0) as (Hmv & Hmi & _ & _ & _ & Hnb & _).
  simpl in Hmv, Hmi, Hnb, Hcnt.
  set (sc := foldl (visit c false) sc0 (box s c)) in *.
  set (nbrs := sc_neighbors sc ∖ moves_made (sc_self sc) ∖ mines (sc_self sc)).
  assert (sc_count sc = Z.of_nat (size (nbrs ∩ B))) as Hnew.
  { assert (nbrs ∩ B = (list_to_set (box s c) ∩ B) ∖ (list_to_set (box s c) ∩ mines s))
      as -> by (unfold nbrs; set_solver).
    rewrite size_difference by set_solver.
    assert (size (list_to_set (box s c) ∩ mines s) ≤ size (list_to_set (box s c) ∩ B))%nat
      by (apply subseteq_size; set_solver).
    rewrite Hcnt, Hcount. lia. }
  assert (sound B (set_knowledge
            (<[c:=Sentence.Sentence nbrs (sc_count sc) false]> (knowledge (sc_self sc)))
            (sc_self sc))) as Hs1.
  { split; simpl; try done.
    - intros n s' Hs' Hflag. destruct (decide (c = n)) as [->|Hne].
      + rewrite lookup_insert_eq in Hs'. by injection Hs' as <-.
      + rewrite lookup_insert_ne in Hs' by done. by eapply H4.
    - intros n s' Hs' Hflag. destruct (decide (c = n)) as [->|Hne].
      + rewrite lookup_insert_eq in Hs'. by injection Hs' as <-.
      + rewrite lookup_insert_ne in Hs' by done. by eapply H5. }
  assert (flagged_except None (set_knowledge
            (<[c:=Sentence.Sentence nbrs (sc_count sc) false]> (knowledge (sc_self sc)))
            (sc_self sc))) as Hfl2.
  { intros n Hn Hne. simpl in *. rewrite lookup_insert_ne; [by apply Hfl1|].
    intros ->. apply Hc. set_solver. }
  destruct (bool_decide (Z.of_nat (size nbrs) = sc_count sc) && negb (sc_count sc =? 0))
    eqn:Hfull; simpl.
  - split_and!; try done.
    apply andb_true_iff in Hfull as [Hsz%bool_decide_eq_true _].
    apply union_least; [done|]. apply size_inter_full. lia.
  - destruct (sc_count sc =? 0) eqn:Hz; simpl; [|done].
    apply Z.eqb_eq in Hz. rewrite mark_safe_all.
    split_and!; try done.
    destruct Hs1 as [H1' H2' H3' H4' H5']. split; simpl in *; try done.
    apply disjoint_union_l. split; [|done].
    apply size_inter_none. lia.
Qed.

Lemma add_knowledge_result_sound (s : t) (c : cell) (count : Z) :
  c ∉ B → sound B s → flagged_except None s →
  count = Z.of_nat (size (list_to_set (box s c) ∩ B)) →
  sound B (add_knowledge_result s c count false) ∧
  flagged_except None (add_knowledge_result s c count false).
Proof.
  intros Hc Hs Hfl Hcount. unfold add_knowledge_result.
  destruct (pass_update_sound s c count Hc Hs Hfl Hcount) as (Hs' & Hfl' & Hms).
  apply record_mines_sound; try done.
  intros m Hm%elem_of_elements. by apply Hms.
Qed.

End soundness.

(** ** The board's count is the number of true mines in the scanned box *)

Lemma elem_of_mine_set (g : Minesweeper.t) (n : cell) :
  n ∈ mine_set g ↔
    Minesweeper.in_bounds g n.1 n.2 = true ∧ Minesweeper.is_mine g n = true.
Proof.
  unfold mine_set. rewrite elem_of_list_to_set, list_elem_of_filter, elem_of_grid.
  rewrite !elem_of_range. unfold Minesweeper.in_bounds.
  rewrite !andb_true_iff, !Z.leb_le, !Z.ltb_lt. intuition lia.
Qed.

Lemma nearby_step_count (g : Minesweeper.t) (c : cell) (l : list cell) (a : Z) :
  foldl (Minesweeper.nearby_step g c) a l
  = a + Z.of_nat (length (filter
          (λ n : cell, n ≠ c ∧ Minesweeper.in_bounds g n.1 n.2 = true
                       ∧ Minesweeper.board_at g n.1 n.2 = true) l)).
Proof.
  revert a. induction l as [|n l IH]; intros a; simpl; [lia|].
  rewrite IH. unfold Minesweeper.nearby_step.
  rewrite filter_cons. case_bool_decide as Hnc.
  - rewrite decide_False by tauto. done.
  - destruct (Minesweeper.in_bounds g n.1 n.2) eqn:Hb;
      [destruct (Minesweeper.board_at g n.1 n.2) eqn:Hm|].
    + rewrite decide_True by done. simpl. lia.
    + rewrite decide_False; [done|]. intros (_ & _ & ?). done.
    + rewrite decide_False; [done|]. intros (_ & ? & _). done.
Qed.

Lemma nearby_mines_box (g : Minesweeper.t) (s : t) (c : cell) :
  Minesweeper.height g = Minesweeper.width g →
  height s = Minesweeper.height g → width s = Minesweeper.width g →
  c ∉ mine_set g →
  Minesweeper.nearby_mines g c
  = Z.of_nat (size (list_to_set (box s c) ∩ mine_set g)).
Proof.
  intros Hsq Hh Hw Hc. unfold Minesweeper.nearby_mines.
  rewrite nearby_step_count, Z.add_0_l. f_equal.
  rewrite <- (size_list_to_set (C := gset cell))
    by apply NoDup_filter, NoDup_window.
  f_equal. apply set_eq. intros n.
  rewrite elem_of_list_to_set, list_elem_of_filter, elem_of_intersection,
    elem_of_list_to_set, elem_of_window, elem_of_box, elem_of_mine_set.
  rewrite Hh, Hw. unfold Minesweeper.in_bounds.
  rewrite !andb_true_iff, !Z.leb_le, !Z.ltb_lt.
  destruct n as [i j]; simpl. split.
  - intros ((Hne & Hb & Hm) & Hwin). split; [lia|]. done.
  - intros (Hbox & Hb & Hm). split_and!; try done; try lia.
    intros <-. apply Hc. apply elem_of_mine_set. split; [|done].
    unfold Minesweeper.in_bounds. rewrite !andb_true_iff, !Z.leb_le, !Z.ltb_lt.
    simpl. done.
Qed.

Lemma mark_mine_result_dims (s : t) (m : cell) :
  height (mark_mine_result s m) = height s ∧ width (mark_mine_result s m) = width s.
Proof.
  unfold mark_mine_result.
  destruct (pass_frame (set_mines ({[m]} ∪ mines s) s) m 0 true) as (_ & _ & -> & -> & _).
  done.
Qed.

Lemma add_knowledge_result_dims (s : t) (c : cell) (count : Z) (b : bool) :
  height (add_knowledge_result s c count b) = height s ∧
  width (add_knowledge_result s c count b) = width s.
Proof.
  unfold add_knowledge_result.
  destruct (pass_frame s c count b) as (_ & _ & <- & <- & _).
  generalize (add_knowledge_pass s c count b).1 as s1.
  induction (elements (add_knowledge_pass s c count b).2) as [|m l IH]; intros s1;
    simpl; [done|].
  destruct (IH (mark_mine_result s1 m)) as [-> ->]. apply mark_mine_result_dims.
Qed.

Lemma init_sound (B : gset cell) (h w : Z) :
  sound B (init h w) ∧ flagged_except None (init h w).
Proof.
  split; [split; simpl|].
  - set_solver.
  - set_solver.
  - set_solver.
  - intros n s Hn. by rewrite lookup_empty in Hn.
  - intros n s Hn. by rewrite lookup_empty in Hn.
  - intros n Hn. simpl in Hn. set_solver.
Qed.

Lemma play_cons (s : t) (c : cell) (n : Z) (moves : list (cell * Z)) :
  play s ((c, n) :: moves) = play (add_knowledge_result s c n false) moves.
Proof.
  unfold play at 1. cbn [foldM fst snd]. rewrite update_result. done.
Qed.

Lemma play_sound (g : Minesweeper.t) (moves : list (cell * Z)) (s : t) :
  Minesweeper.height g = Minesweeper.width g →
  height s = Minesweeper.height g → width s = Minesweeper.width g →
  Forall (honest g) moves →
  sound (mine_set g) s → flagged_except None s →
  ∃ s', play s moves = Some s' ∧ sound (mine_set g) s' ∧ flagged_except None s'.
Proof.
  intros Hsq Hh Hw Hmoves. revert s Hh Hw.
  induction Hmoves as [|[c n] moves (Hb & Hm & Hn) _ IH]; intros s Hh Hw Hs Hfl.
  - exists s. done.
  - rewrite play_cons. cbn [fst snd] in Hb, Hm, Hn.
    assert (c ∉ mine_set g) as Hc.
    { rewrite elem_of_mine_set. intros [_ ?]. congruence. }
    destruct (add_knowledge_result_sound (mine_set g) s c n) as [Hs' Hfl']; try done.
    { rewrite Hn. by apply nearby_mines_box. }
    destruct (add_knowledge_result_dims s c n false) as [Hh' Hw'].
    apply IH; [congruence|congruence|done|done].
Qed.

(** ** What the stored sentence talks about *)

(** On a square board the scanned box, without the opened cell, is the
    neighbour set of the specification. *)
Lemma box_square (s : t) (c : cell) :
  height s = width s →
  list_to_set (box s c) ∖ {[c]} = spec_neighbors (height s) (width s) c.
Proof.
  intros Hsq. apply set_eq. intros n. unfold spec_neighbors.
  rewrite elem_of_difference, !elem_of_list_to_set, list_elem_of_filter,
    elem_of_box, elem_of_window, elem_of_singleton.
  rewrite Hsq. destruct n as [i j], c as [x y]; simpl. intuition lia.
Qed.

(** The sentence [add_knowledge] stores: the scanned box without the
    opened cell, the cells opened before and the known mines. *)
Lemma pass_stored_cells (s : t) (c : cell) (count : Z) (b : bool) :
  Sentence.cells <$> knowledge (add_knowledge_pass s c count b).1 !! c
  = Some (list_to_set (box s c) ∖ {[c]} ∖ moves_made s ∖ mines s).
Proof.
  unfold add_knowledge_pass.
  set (s0 := set_moves_made ({[c]} ∪ moves_made s) s).
  change (box s0 c) with (box s c).
  destruct (scan_frame c b (box s c) (Scan s0 ∅ ∅ count))
    as (Hmv & Hmi & _ & _ & _ & Hnb & _).
  simpl in Hmv, Hmi, Hnb.
  set (sc := foldl (visit c b) (Scan s0 ∅ ∅ count) (box s c)) in *.
  assert (sc_neighbors sc ∖ moves_made (sc_self sc) ∖ mines (sc_self sc)
          = list_to_set (box s c) ∖ {[c]} ∖ moves_made s ∖ mines s) as Heq.
  { rewrite Hmv, Hmi, Hnb. set_solver. }
  repeat case_match; simpl; rewrite ?mark_safe_all; simpl;
    rewrite lookup_insert_eq; simpl; by rewrite Heq.
Qed.

(** ** [make_random_move] *)

Lemma make_random_move_Some (s : t) (c : cell) :
  make_random_move s = Some c →
  (c ∉ moves_made s) ∧ 0 ≤ c.1 < 7 ∧ 0 ≤ c.2 < 7.
Proof.
  unfold make_random_move. intros Hhd%head_Some_elem_of.
  apply list_elem_of_filter in Hhd as [Hnot Hin].
  apply elem_of_grid in Hin as [H1%elem_of_range H2%elem_of_range]. done.
Qed.

Lemma make_random_move_None (s : t) :
  make_random_move s = None ↔
  ∀ c : cell, 0 ≤ c.1 < 7 → 0 ≤ c.2 < 7 → c ∈ moves_made s.
Proof.
  unfold make_random_move. rewrite head_None. split.
  - intros Hnil c H1 H2. destruct (decide (c ∈ moves_made s)) as [|Hnot]; [done|].
    exfalso. eapply (filter_nil_not_elem_of _ _ c Hnil Hnot).
    apply elem_of_grid. by rewrite !elem_of_range.
  - intros Hall.
    destruct (filter _ _) as [|c l] eqn:Hf; [done|].
    assert (c ∈ c :: l) as Hin by left. rewrite <- Hf in Hin.
    apply list_elem_of_filter in Hin as [Hnot Hin].
    apply elem_of_grid in Hin as [H1%elem_of_range H2%elem_of_range].
    destruct Hnot. by apply Hall.
Qed.

(** Every known mine is also recorded as a move made, in every state
    the calls reach from a fresh agent: this is why [make_random_move]
    can do without a look at [mines]. *)
Lemma after_call_mines_moved (s : t) (k : call) :
  mines s ⊆ moves_made s → mines (after_call s k) ⊆ moves_made (after_call s k).
Proof.
  assert (∀ s m, mines s ⊆ moves_made s →
            mines (mark_mine_result s m) ⊆ moves_made (mark_mine_result s m)) as Hmark.
  { intros s' m Hs'. unfold mark_mine_result.
    destruct (pass_frame (set_mines ({[m]} ∪ mines s') s') m 0 true) as (-> & -> & _).
    simpl. set_solver. }
  destruct k as [c n|pick| |c|c]; simpl; try done; [|by apply Hmark].
  intros Hs. unfold add_knowledge_result.
  destruct (pass_frame s c n false) as (Hmv & Hmi & _).
  assert (mines (add_knowledge_pass s c n false).1
          ⊆ moves_made (add_knowledge_pass s c n false).1) as Hp
    by (rewrite Hmv, Hmi; set_solver).
  revert Hp. generalize (add_knowledge_pass s c n false).1 as s1.
  induction (elements (add_knowledge_pass s c n false).2) as [|m l IH];
    intros s1 Hs1; simpl; [done|].
  by apply IH, Hmark.
Qed.

Lemma reachable_mines_moved (calls : list call) (h w : Z) :
  mines (foldl after_call (init h w) calls)
  ⊆ moves_made (foldl after_call (init h w) calls).
Proof.
  assert (mines (init h w) ⊆ moves_made (init h w)) as Hinit by done.
  revert Hinit. generalize (init h w) as s.
  induction calls as [|k calls IH]; intros s Hs; simpl; [done|].
  by apply IH, after_call_mines_moved.
Qed.

(** * The claims *)

(** C1 (violated by the code): subset inference.  On a 3 x 3 board with
    its single mine in the centre, the cells (1,2), (0,2) and (0,0) are
    opened and each reports one mine.  The agent then holds the
    sentences {(0,1),(1,1)} = 1 and {(0,1),(1,0),(1,1)} = 1, the first
    a strict subset of the second, yet (1,0) is not in [safes] and no
    stored sentence equals {(1,0)} = 0: [add_knowledge] has no subset
    inference. *)
Theorem subset_inference_missing :
  Forall (honest (Minesweeper.place 3 3 [(1, 1)]))
         [((1, 2), 1); ((0, 2), 1); ((0, 0), 1)] ∧
  ∃ s, play (init 3 3) [((1, 2), 1); ((0, 2), 1); ((0, 0), 1)] = Some s ∧
    knowledge s !! (0, 2) = Some (Sentence.Sentence {[ (0, 1); (1, 1) ]} 1 false) ∧
    knowledge s !! (0, 0) = Some (Sentence.Sentence {[ (0, 1); (1, 0); (1, 1) ]} 1 false) ∧
    ((1, 0) ∉ safes s) ∧
    ∀ n t, knowledge s !! n = Some t →
      Sentence.eq t (Sentence.Sentence {[ (1, 0) ]} 0 false) = false.
Proof.
  split; [repeat constructor|].
  eexists. split; [apply play_result|].
  split_and!; try (vm_compute; reflexivity).
  - apply (bool_decide_unpack _). vm_compute. exact I.
  - apply map_Forall_lookup. apply (bool_decide_unpack _). vm_compute. exact I.
Qed.

(** C2 (violated by the code): [known_mines] never returns a set; for
    every sentence it raises [NotImplementedError], also for the
    sentence {(0,0)} = 1 whose only cell must be a mine. *)
Theorem known_mines_raises :
  (∀ s, Sentence.known_mines s = inl Sentence.NotImplementedError) ∧
  Sentence.known_mines (Sentence.Sentence {[ (0, 0) ]} 1 false) ≠ inr {[ (0, 0) ]}.
Proof. split; [done|]. unfold Sentence.known_mines. discriminate. Qed.

(** C3 (violated by the code): on a board of height 2 and width 3 the
    cell (0,2) is opened with count 1.  Its neighbour set is
    {(0,1),(1,1),(1,2)} and nothing is known safe or mine, but the
    sentence stored for it is over {(0,1),(1,1)} only: the scan clips
    the row by the width and the column by the height. *)
Theorem stored_sentence_nonsquare :
  honest (Minesweeper.place 2 3 [(1, 2)]) ((0, 2), 1) ∧
  spec_neighbors 2 3 (0, 2) ∖ safes (init 2 3) ∖ mines (init 2 3)
    = {[ (0, 1); (1, 1); (1, 2) ]} ∧
  ∃ s, update (init 2 3) (0, 2) 1 = Some s ∧
    knowledge s !! (0, 2) = Some (Sentence.Sentence {[ (0, 1); (1, 1) ]} 1 false).
Proof.
  split; [repeat constructor|].
  split; [vm_compute; reflexivity|].
  eexists. split; [apply update_result|]. vm_compute. reflexivity.
Qed.

(** C4 (violated by the code): after [update((0,0), 1)] on a fresh
    8 x 8 agent the opened cell is in [moves_made] but not in [safes],
    so [moves_made] is not a subset of [safes]. *)
Theorem opened_cell_not_safe :
  ∃ s, update (init 8 8) (0, 0) 1 = Some s ∧
    (0, 0) ∈ moves_made s ∧ ((0, 0) ∉ safes s) ∧ ¬ (moves_made s ⊆ safes s).
Proof.
  eexists. split; [apply update_result|].
  split_and!; apply (bool_decide_unpack _); vm_compute; exact I.
Qed.

(** C5 (violated by the code): on an 8 x 8 board whose single mine is
    at (1,3), (0,0) is opened with count 0 and then (0,2) with count 1.
    The sentence stored for (0,2) is unresolved and still names (0,1)
    and (1,1), both already in [safes]: [mark_safe] does not prune the
    stored sentences.  And after [mark_mine((0,0))] and
    [mark_mine((0,1))] on a fresh agent the sentence stored for (0,0)
    has count -1. *)
Theorem live_sentence_invariant_broken :
  Forall (honest (Minesweeper.place 8 8 [(1, 3)])) [((0, 0), 0); ((0, 2), 1)] ∧
  (∃ s, play (init 8 8) [((0, 0), 0); ((0, 2), 1)] = Some s ∧
     knowledge s !! (0, 2)
       = Some (Sentence.Sentence {[ (0, 1); (1, 1); (0, 3); (1, 2); (1, 3) ]} 1 false) ∧
     (0, 1) ∈ safes s ∧ (1, 1) ∈ safes s) ∧
  (∃ s, run [MarkMine (0, 0); MarkMine (0, 1)] (init 8 8) = Some s ∧
     knowledge s !! (0, 0) = Some (Sentence.Sentence {[ (1, 0); (1, 1) ]} (-1) true)).
Proof.
  split; [repeat constructor|]. split.
  - eexists. split; [apply play_result|].
    split_and!; try (vm_compute; reflexivity);
      apply (bool_decide_unpack _); vm_compute; exact I.
  - eexists. split; [apply run_result|]. vm_compute. reflexivity.
Qed.

(** [mark_safe] and [mark_mine] are not guarded: marking (0,0) safe
    and then mine leaves it in both sets, and two [update] calls whose
    counts no board can report do the same to (1,1). *)
Lemma marks_overlap :
  (∃ s, run [MarkSafe (0, 0); MarkMine (0, 0)] (init 8 8) = Some s ∧
     safes s ∩ mines s ≠ ∅) ∧
  (∃ s, run [Update (0, 0) 0; Update (2, 2) 8] (init 8 8) = Some s ∧
     safes s ∩ mines s ≠ ∅).
Proof.
  split; eexists; (split; [apply run_result|]);
    apply (bool_decide_unpack _); vm_compute; exact I.
Qed.

(** C6 (violated by the code): [safes] and [mines] do not stay
    disjoint in an honest game.  On a board of height 3 and width 1
    with its mine at (2,0), opening (0,0) and (1,0) with the counts 0
    and 1 the board reports puts (0,1) in [safes] and then in [mines]:
    [add_knowledge] clips the first coordinate of its scan by the
    width and the second by the height, so it scans (0,1), a cell that
    is not on the board. *)
Theorem nonsquare_play_overlap :
  Forall (honest (Minesweeper.place 3 1 [(2, 0)])) [((0, 0), 0); ((1, 0), 1)] ∧
  ∃ s, play (init 3 1) [((0, 0), 0); ((1, 0), 1)] = Some s ∧
    (0, 1) ∈ safes s ∩ mines s.
Proof.
  split; [repeat constructor|].
  eexists. split; [apply play_result|].
  apply (bool_decide_unpack _). vm_compute. exact I.
Qed.

(** Where the two clippings agree, on a square board, an honest game
    (every [update] is for an in-range cell without a mine and carries
    the count of the board's [nearby_mines]) keeps the two sets apart:
    the agent answers every call, every cell of [mines] holds a mine
    and no cell of [safes] does. *)
Theorem honest_play_disjoint (g : Minesweeper.t) (moves : list (cell * Z)) :
  Minesweeper.height g = Minesweeper.width g →
  Forall (honest g) moves →
  ∃ s, play (init (Minesweeper.height g) (Minesweeper.width g)) moves = Some s ∧
    mines s ⊆ mine_set g ∧ safes s ## mine_set g ∧ safes s ∩ mines s = ∅.
Proof.
  intros Hsq Hmoves.
  destruct (init_sound (mine_set g) (Minesweeper.height g) (Minesweeper.width g))
    as [Hs Hfl].
  destruct (play_sound g moves (init (Minesweeper.height g) (Minesweeper.width g))
              Hsq eq_refl eq_refl Hmoves Hs Hfl)
    as (s & Hplay & [H1 H2 H3 H4 H5] & _).
  exists s. split_and!; try done. set_solver.
Qed.

Lemma honest_play_disjoint_witness :
  Minesweeper.height (Minesweeper.place 8 8 [(1, 1)])
    = Minesweeper.width (Minesweeper.place 8 8 [(1, 1)]) ∧
  Forall (honest (Minesweeper.place 8 8 [(1, 1)]))
         [((0, 1), 1); ((1, 0), 1); ((0, 0), 1)] ∧
  ∃ s, play (init 8 8) [((0, 1), 1); ((1, 0), 1); ((0, 0), 1)] = Some s ∧
    mines s ⊆ mine_set (Minesweeper.place 8 8 [(1, 1)]) ∧
    safes s ## mine_set (Minesweeper.place 8 8 [(1, 1)]) ∧
    safes s ∩ mines s = ∅.
Proof.
  split; [reflexivity|]. split; [repeat constructor|].
  apply (honest_play_disjoint (Minesweeper.place 8 8 [(1, 1)])); [reflexivity|].
  repeat constructor.
Defined.

(** C7 (violated by the code): [make_random_move] only looks at the
    cells of [range(0,7) x range(0,7)].  On an 8 x 8 board without
    mines, once those 49 cells are opened it returns nothing although
    (7,7) is neither visited nor a known mine; and on a 3 x 3 board
    whose nine cells are all opened it returns (0,3), a cell outside
    the board. *)
Theorem random_move_ignores_board :
  Forall (honest (Minesweeper.place 8 8 []))
         (i ← range 0 7; j ← range 0 7; [((i, j), 0)]) ∧
  (∃ s, play (init 8 8) ((i ← range 0 7; j ← range 0 7; [((i, j), 0)])) = Some s ∧
     make_random_move s = None ∧
     ((7, 7) ∉ moves_made s) ∧ ((7, 7) ∉ mines s)) ∧
  (∃ s, play (init 3 3) ((i ← range 0 3; j ← range 0 3; [((i, j), 0)])) = Some s ∧
     make_random_move s = Some (0, 3)).
Proof.
  split; [repeat constructor|]. split.
  - eexists. split; [apply play_result|].
    split_and!; try (vm_compute; reflexivity);
      apply (bool_decide_unpack _); vm_compute; exact I.
  - eexists. split; [apply play_result|]. vm_compute. reflexivity.
Qed.

Lemma run_grows (calls : list call) (s : t) : grows s (foldl after_call s calls).
Proof. apply foldl_grows, after_call_grows. Qed.

(** C8: along every sequence of calls ([update], [make_safe_move],
    [make_random_move], and also direct [mark_mine] and [mark_safe])
    every call comes to an end ([make_safe_move] possibly by the
    [TypeError] of [random.sample], the others by returning), and a
    cell that is in [moves_made], [safes] or [mines] after a prefix of
    the sequence is still there after the whole sequence. *)
Theorem sets_only_grow (calls1 calls2 : list call) (s : t) :
  ∃ s1 s2, run calls1 s = Some s1 ∧ run (calls1 ++ calls2) s = Some s2 ∧
    moves_made s1 ⊆ moves_made s2 ∧ safes s1 ⊆ safes s2 ∧ mines s1 ⊆ mines s2.
Proof.
  exists (foldl after_call s calls1), (foldl after_call s (calls1 ++ calls2)).
  rewrite !run_result. split; [done|]. split; [done|].
  rewrite foldl_app. apply run_grows.
Qed.

(** C9: [mark_safe(cell)] adds [cell] to [safes] and changes nothing
    else: [moves_made], [mines], the dictionary of sentences (hence
    the cells and count of every stored sentence) and the dimensions
    are the same before and after. *)
Theorem mark_safe_frame (s : t) (c : cell) :
  safes (mark_safe s c) = {[c]} ∪ safes s ∧
  moves_made (mark_safe s c) = moves_made s ∧
  mines (mark_safe s c) = mines s ∧
  knowledge (mark_safe s c) = knowledge s ∧
  height (mark_safe s c) = height s ∧
  width (mark_safe s c) = width s.
Proof. by split_and!. Qed.

(** C10: [mark_mine(cell)] returns as soon as the call stack has room
    for its call of [add_knowledge], and afterwards [cell] is in
    [mines] and in [moves_made]. *)
Theorem mark_mine_records (depth : nat) (s : t) (c : cell) :
  (2 ≤ depth)%nat →
  ∃ s', mark_mine depth s c = Some s' ∧ c ∈ mines s' ∧ c ∈ moves_made s'.
Proof.
  intros Hd. destruct depth as [|[|d]]; [lia|lia|].
  rewrite mark_mine_depth. eexists. split; [done|].
  unfold mark_mine_result.
  destruct (pass_frame (set_mines ({[c]} ∪ mines s) s) c 0 true) as (-> & -> & _).
  simpl. set_solver.
Qed.

Lemma mark_mine_records_witness :
  (2 ≤ 2)%nat ∧
  ∃ s', mark_mine 2 (init 8 8) (0, 0) = Some s' ∧
    (0, 0) ∈ mines s' ∧ (0, 0) ∈ moves_made s'.
Proof.
  split; [lia|]. apply (mark_mine_records 2 (init 8 8) (0, 0)). lia.
Defined.


(** * Further properties of the code *)

(** ** The call stack *)

(** X1: [add_knowledge] always returns once the call stack has room
    for three frames ([add_knowledge], [mark_mine], [add_knowledge]),
    and more room does not change its result: the inner call made for
    a mine never finds further mines to record. *)
Theorem add_knowledge_returns (depth : nat) (s : t) (c : cell) (count : Z) (b : bool) :
  (3 ≤ depth)%nat →
  ∃ s', add_knowledge depth s c count b = Some s' ∧
        add_knowledge 3 s c count b = Some s'.
Proof.
  intros Hd. destruct depth as [|[|[|d]]]; [lia|lia|lia|].
  exists (add_knowledge_result s c count b).
  split; [apply add_knowledge_depth | apply (add_knowledge_depth 0)].
Qed.

Lemma add_knowledge_returns_witness :
  (3 ≤ 5)%nat ∧
  ∃ s', add_knowledge 5 (init 8 8) (0, 0) 3 false = Some s' ∧
        add_knowledge 3 (init 8 8) (0, 0) 3 false = Some s'.
Proof.
  split; [lia|]. apply (add_knowledge_returns 5 (init 8 8) (0, 0) 3 false). lia.
Defined.

(** ** The two move choosers *)

Lemma elem_of_elements_lookup (X : gset cell) (i : nat) (c : cell) :
  elements X !! i = Some c → c ∈ X.
Proof. intros Hi. apply elem_of_elements, list_elem_of_lookup. by exists i. Qed.

Lemma unexplored_safes_nil (s : t) :
  elements (safes s ∖ moves_made s) = [] ↔ safes s ⊆ moves_made s.
Proof.
  split.
  - intros Hel%elements_empty_inv. set_solver.
  - intros Hsub. apply elements_empty_iff. set_solver.
Qed.

(** X2: [make_safe_move] returns [None] exactly when every cell of
    [safes] is in [moves_made], whatever [random.sample] does.  In
    every other state it raises [TypeError] where [random.sample]
    refuses a set, and where [random.sample] draws from a set it
    returns a cell; a cell it returns is in [safes] and not in
    [moves_made], and every such cell is returned for some draw. *)
Theorem make_safe_move_spec (s : t) :
  (∀ r, make_safe_move r s = Returned None ↔ safes s ⊆ moves_made s) ∧
  (make_safe_move Refuses s = TypeError ↔ ¬ safes s ⊆ moves_made s) ∧
  (∀ pick, ¬ safes s ⊆ moves_made s →
     ∃ c, make_safe_move (Draws pick) s = Returned (Some c)) ∧
  (∀ r c, make_safe_move r s = Returned (Some c) → c ∈ safes s ∧ c ∉ moves_made s) ∧
  (∀ c, c ∈ safes s → c ∉ moves_made s →
     ∃ pick, make_safe_move (Draws pick) s = Returned (Some c)).
Proof.
  pose proof (unexplored_safes_nil s) as Hnil. unfold make_safe_move.
  destruct (elements (safes s ∖ moves_made s)) as [|a l] eqn:Hel.
  - assert (safes s ⊆ moves_made s) as Hsub by by apply Hnil.
    split; [done|]. split; [split; [done|tauto]|].
    split; [tauto|]. split; [by intros [] ?|].
    intros c Hc Hnot. set_solver.
  - assert (¬ safes s ⊆ moves_made s) as Hsub by (intros Hsub%Hnil; done).
    assert (length (a :: l) ≠ 0)%nat as Hlen by done.
    split.
    { intros r. split; [|done]. destruct r as [pick|]; [|done].
      intros Hnone.
      assert ((a :: l) !! (pick `mod` length (a :: l))%nat = None) as Hlookup
        by congruence.
      apply lookup_ge_None in Hlookup.
      pose proof (Nat.mod_upper_bound pick (length (a :: l)) Hlen). lia. }
    split; [done|]. split.
    { intros pick _.
      pose proof (Nat.mod_upper_bound pick (length (a :: l)) Hlen) as Hlt.
      apply lookup_lt_is_Some in Hlt as [c Hc]. exists c. by rewrite Hc. }
    split.
    { intros r c Hc. destruct r as [pick|]; [|done]. injection Hc as Hc.
      rewrite <- Hel in Hc. apply elem_of_elements_lookup in Hc. set_solver. }
    intros c Hc Hnot.
    assert (c ∈ a :: l) as Hin by (rewrite <- Hel; apply elem_of_elements; set_solver).
    apply list_elem_of_lookup in Hin as [i Hi]. exists i.
    rewrite Nat.mod_small; [by rewrite Hi|]. by apply lookup_lt_Some in Hi.
Qed.

Lemma head_filter_split {A : Type} (P : A → Prop) `{!∀ x, Decision (P x)}
    (l : list A) (x : A) :
  head (filter P l) = Some x →
  ∃ l1 l2, l = l1 ++ x :: l2 ∧ P x ∧ Forall (λ y, ¬ P y) l1.
Proof.
  induction l as [|a l IH]; [done|]. rewrite filter_cons.
  destruct (decide (P a)) as [Ha|Ha]; simpl.
  - intros [= ->]. exists [], l. by split_and!.
  - intros Hhd. destruct (IH Hhd) as (l1 & l2 & -> & Hx & Hl1).
    exists (a :: l1), l2. split_and!; [done|done|by constructor].
Qed.

#[local] Instance before_dec : RelDecision before.
Proof. intros a b. unfold before. apply _. Defined.

Lemma grid7_sorted :
  StronglySorted before (i ← range 0 7; j ← range 0 7; [(i, j)]).
Proof. apply (bool_decide_unpack _). vm_compute. exact I. Qed.

(** X3: [make_random_move] returns nothing exactly when the 49 cells of
    [range(0,7) x range(0,7)] are all in [moves_made]; otherwise it
    returns the first of these cells, in row-major order, that is not
    in [moves_made]. *)
Theorem make_random_move_spec (s : t) :
  (make_random_move s = None ↔
     ∀ c : cell, 0 ≤ c.1 < 7 → 0 ≤ c.2 < 7 → c ∈ moves_made s) ∧
  (∀ c, make_random_move s = Some c →
     (c ∉ moves_made s) ∧ 0 ≤ c.1 < 7 ∧ 0 ≤ c.2 < 7 ∧
     ∀ c' : cell, 0 ≤ c'.1 < 7 → 0 ≤ c'.2 < 7 → before c' c → c' ∈ moves_made s).
Proof.
  split; [apply make_random_move_None|].
  intros c Hc. destruct (make_random_move_Some s c Hc) as (Hnot & H1 & H2).
  split; [exact Hnot|]. split; [exact H1|]. split; [exact H2|].
  intros c' H1' H2' Hbefore.
  apply head_filter_split in Hc as (l1 & l2 & Hgrid & _ & Hl1).
  pose proof grid7_sorted as Hsorted. rewrite Hgrid in Hsorted.
  apply StronglySorted_app in Hsorted as (_ & _ & Hcl2).
  apply StronglySorted_cons in Hcl2 as [Hafter _].
  assert (c' ∈ l1 ++ c :: l2) as Hin.
  { rewrite <- Hgrid. apply elem_of_grid. by rewrite !elem_of_range. }
  apply elem_of_app in Hin as [Hin|Hin].
  - rewrite Forall_forall in Hl1. specialize (Hl1 c' Hin).
    destruct (decide (c' ∈ moves_made s)); [done|]. by destruct Hl1.
  - apply elem_of_cons in Hin as [->|Hin].
    + unfold before in Hbefore. lia.
    + rewrite Forall_forall in Hafter. specialize (Hafter c' Hin).
      unfold before in Hbefore, Hafter. lia.
Qed.

(** X4: in every state that calls reach from a fresh agent, a cell that
    [make_random_move] returns is neither opened nor a known mine:
    every cell the agent puts in [mines] it also puts in [moves_made]. *)
Theorem random_move_not_mine (calls : list call) (h w : Z) (s : t) (c : cell) :
  run calls (init h w) = Some s →
  make_random_move s = Some c →
  (c ∉ moves_made s) ∧ (c ∉ mines s).
Proof.
  rewrite run_result. intros [= <-] Hc.
  destruct (make_random_move_Some _ c Hc) as (Hnot & _).
  split; [done|]. intros Hmine. apply Hnot.
  by apply reachable_mines_moved.
Qed.

Lemma random_move_not_mine_witness :
  run [MarkMine (0, 0); Update (0, 1) 1] (init 8 8)
    = Some (foldl after_call (init 8 8) [MarkMine (0, 0); Update (0, 1) 1]) ∧
  make_random_move (foldl after_call (init 8 8) [MarkMine (0, 0); Update (0, 1) 1])
    = Some (0, 2) ∧
  ((0, 2) ∉ moves_made (foldl after_call (init 8 8) [MarkMine (0, 0); Update (0, 1) 1])) ∧
  ((0, 2) ∉ mines (foldl after_call (init 8 8) [MarkMine (0, 0); Update (0, 1) 1])).
Proof.
  assert (run [MarkMine (0, 0); Update (0, 1) 1] (init 8 8)
    = Some (foldl after_call (init 8 8) [MarkMine (0, 0); Update (0, 1) 1])) as Hrun
    by apply run_result.
  assert (make_random_move (foldl after_call (init 8 8) [MarkMine (0, 0); Update (0, 1) 1])
    = Some (0, 2)) as Hmove by (vm_compute; reflexivity).
  split; [exact Hrun|]. split; [exact Hmove|].
  exact (random_move_not_mine _ 8 8 _ _ Hrun Hmove).
Defined.

(** ** The dictionary of sentences *)

Lemma visit_knowledge (c : cell) (b : bool) (sc : scan) (n : cell) :
  knowledge (sc_self (visit c b sc n))
  = alter (shrink c b) n (knowledge (sc_self sc)).
Proof.
  unfold visit. destruct (knowledge (sc_self sc) !! n) as [t|] eqn:Hn.
  - assert (<[n:=shrink c b t]> (knowledge (sc_self sc))
            = alter (shrink c b) n (knowledge (sc_self sc))) as Hins.
    { apply map_eq. intros j. rewrite lookup_alter, lookup_insert.
      case_decide; [subst; by rewrite Hn|done]. }
    unfold shrink in *. destruct (decide (c ∈ Sentence.cells t)).
    + destruct b; simpl.
      * destruct (Sentence.count t - 1 =? 0); rewrite ?mark_safe_all; exact Hins.
      * exact Hins.
    + simpl. symmetry. apply alter_id. intros t' Ht'.
      rewrite Hn in Ht'. injection Ht' as <-. by rewrite decide_False.
  - simpl. symmetry. by apply alter_id'.
Qed.

Lemma scan_knowledge_dom (c : cell) (b : bool) (l : list cell) (sc : scan) :
  dom (knowledge (sc_self (foldl (visit c b) sc l))) = dom (knowledge (sc_self sc)).
Proof.
  revert sc. induction l as [|n l IH]; intros sc; simpl; [done|].
  rewrite IH, visit_knowledge. apply dom_alter_L.
Qed.

Lemma pass_knowledge_dom (s : t) (c : cell) (count : Z) (b : bool) :
  dom (knowledge (add_knowledge_pass s c count b).1) = {[c]} ∪ dom (knowledge s).
Proof.
  unfold add_knowledge_pass.
  set (s0 := set_moves_made ({[c]} ∪ moves_made s) s).
  pose proof (scan_knowledge_dom c b (box s0 c) (Scan s0 ∅ ∅ count)) as Hdom.
  simpl in Hdom.
  repeat case_match; simpl; rewrite ?mark_safe_all; simpl;
    by rewrite dom_insert_L, Hdom.
Qed.

Lemma after_call_knowledge_dom (s : t) (k : call) :
  dom (knowledge s) = moves_made s →
  dom (knowledge (after_call s k)) = moves_made (after_call s k).
Proof.
  assert (∀ s m, dom (knowledge s) = moves_made s →
            dom (knowledge (mark_mine_result s m)) = moves_made (mark_mine_result s m))
    as Hmark.
  { intros s' m Hs'. unfold mark_mine_result. rewrite pass_knowledge_dom.
    destruct (pass_frame (set_mines ({[m]} ∪ mines s') s') m 0 true) as (-> & _).
    simpl. by rewrite Hs'. }
  destruct k as [c n|pick| |c|c]; simpl; try done; [|by apply Hmark].
  intros Hs. unfold add_knowledge_result.
  assert (dom (knowledge (add_knowledge_pass s c n false).1)
          = moves_made (add_knowledge_pass s c n false).1) as Hp.
  { rewrite pass_knowledge_dom.
    destruct (pass_frame s c n false) as (-> & _). by rewrite Hs. }
  revert Hp. generalize (add_knowledge_pass s c n false).1 as s1.
  induction (elements (add_knowledge_pass s c n false).2) as [|m l IH];
    intros s1 Hs1; simpl; [done|].
  by apply IH, Hmark.
Qed.

(** X5: in every state that calls reach from a fresh agent, the agent
    stores a sentence for exactly the cells of [moves_made]: the keys
    of [knowledge] and the set [moves_made] are the same. *)
Theorem knowledge_keys_are_moves (calls : list call) (h w : Z) (s : t) :
  run calls (init h w) = Some s →
  dom (knowledge s) = moves_made s.
Proof.
  rewrite run_result. intros [= <-].
  assert (dom (knowledge (init h w)) = moves_made (init h w)) as Hinit
    by (simpl; apply dom_empty_L).
  revert Hinit. generalize (init h w) as s0.
  induction calls as [|k calls IH]; intros s0 Hs0; simpl; [done|].
  by apply IH, after_call_knowledge_dom.
Qed.

Lemma knowledge_keys_are_moves_witness :
  run [Update (0, 0) 1; MarkMine (3, 3)] (init 8 8)
    = Some (foldl after_call (init 8 8) [Update (0, 0) 1; MarkMine (3, 3)]) ∧
  dom (knowledge (foldl after_call (init 8 8) [Update (0, 0) 1; MarkMine (3, 3)]))
    = moves_made (foldl after_call (init 8 8) [Update (0, 0) 1; MarkMine (3, 3)]).
Proof.
  assert (run [Update (0, 0) 1; MarkMine (3, 3)] (init 8 8)
    = Some (foldl after_call (init 8 8) [Update (0, 0) 1; MarkMine (3, 3)])) as Hrun
    by apply run_result.
  split; [exact Hrun|].
  exact (knowledge_keys_are_moves _ 8 8 _ Hrun).
Defined.

Lemma scan_knowledge_lookup (c : cell) (b : bool) (l : list cell) (sc : scan) (n : cell) :
  NoDup l →
  knowledge (sc_self (foldl (visit c b) sc l)) !! n
  = if decide (n ∈ l) then shrink c b <$> knowledge (sc_self sc) !! n
    else knowledge (sc_self sc) !! n.
Proof.
  intros Hnd. revert sc. induction Hnd as [|a l Ha Hnd IH]; intros sc; cbn [foldl].
  - rewrite decide_False; [done|]. apply not_elem_of_nil.
  - rewrite IH, visit_knowledge, lookup_alter.
    destruct (decide (a = n)) as [->|Hne].
    + rewrite decide_False by done. rewrite decide_True; [done|left].
    + destruct (decide (n ∈ l)) as [Hin|Hnin].
      * rewrite decide_True; [done|by right].
      * rewrite decide_False; [done|]. intros [->|?]%elem_of_cons; done.
Qed.

Lemma pass_knowledge_lookup (s : t) (c : cell) (count : Z) (b : bool) (n : cell) :
  n ≠ c →
  knowledge (add_knowledge_pass s c count b).1 !! n
  = if decide (n ∈ box s c) then shrink c b <$> knowledge s !! n
    else knowledge s !! n.
Proof.
  intros Hne. unfold add_knowledge_pass.
  set (s0 := set_moves_made ({[c]} ∪ moves_made s) s).
  change (box s0 c) with (box s c).
  pose proof (scan_knowledge_lookup c b (box s c) (Scan s0 ∅ ∅ count) n (NoDup_box s c))
    as Hscan.
  simpl in Hscan.
  repeat case_match; simpl; rewrite ?mark_safe_all; simpl;
    rewrite lookup_insert_ne by done; exact Hscan.
Qed.

(** X6: what [mark_mine(m)] does to the stored sentences.  The
    sentence of every scanned cell that names [m] loses [m] and one
    unit of its count, every other sentence of another cell is left
    as it is, and the sentence stored for [m] itself is flagged, has
    count 0 and is over the scanned cells that are neither opened nor
    known mines. *)
Theorem mark_mine_sentences (s : t) (m : cell) :
  ∃ s', mark_mine 2 s m = Some s' ∧
    (∀ n, n ≠ m →
       knowledge s' !! n
       = match knowledge s !! n with
         | Some t =>
             if decide (n ∈ box s m ∧ m ∈ Sentence.cells t)
             then Some (Sentence.Sentence (Sentence.cells t ∖ {[m]})
                          (Sentence.count t - 1) (Sentence.is_mine t))
             else Some t
         | None => None
         end) ∧
    knowledge s' !! m
    = Some (Sentence.Sentence
              (list_to_set (box s m) ∖ {[m]} ∖ moves_made s ∖ ({[m]} ∪ mines s))
              0 true).
Proof.
  exists (mark_mine_result s m). split; [apply (mark_mine_depth 0)|]. split.
  - intros n Hne. unfold mark_mine_result.
    rewrite pass_knowledge_lookup by done.
    change (box (set_mines ({[m]} ∪ mines s) s) m) with (box s m).
    change (knowledge (set_mines ({[m]} ∪ mines s) s)) with (knowledge s).
    destruct (knowledge s !! n) as [t|]; [|by case_decide].
    unfold shrink.
    destruct (decide (n ∈ box s m ∧ m ∈ Sentence.cells t)) as [[Hbox Hin]|Hno].
    + rewrite (decide_True (P := n ∈ box s m)) by done. simpl.
      rewrite (decide_True (P := m ∈ Sentence.cells t)) by done. done.
    + destruct (decide (n ∈ box s m)) as [Hbox|Hbox]; simpl; [|done].
      rewrite (decide_False (P := m ∈ Sentence.cells t)) by tauto. done.
  - unfold mark_mine_result.
    set (s1 := set_mines ({[m]} ∪ mines s) s).
    pose proof (pass_stored_cells s1 m 0 true) as Hcells.
    change (box s1 m) with (box s m) in Hcells.
    change (moves_made s1) with (moves_made s) in Hcells.
    change (mines s1) with ({[m]} ∪ mines s) in Hcells.
    revert Hcells. unfold add_knowledge_pass.
    destruct (scan_mine m (box (set_moves_made ({[m]} ∪ moves_made s1) s1) m)
                (Scan (set_moves_made ({[m]} ∪ moves_made s1) s1) ∅ ∅ 0) eq_refl)
      as [_ Hc].
    rewrite Hc. simpl. rewrite andb_false_r. simpl.
    rewrite !lookup_insert_eq. simpl. intros [= ->]. done.
Qed.

(** ** What [update] adds to the three sets *)

Lemma scan_count_zero (c : cell) (b : bool) (l : list cell) (sc : scan) :
  sc_count sc = 0 → sc_count (foldl (visit c b) sc l) = 0.
Proof.
  revert sc. induction l as [|n l IH]; intros sc H0; simpl; [done|].
  apply IH. rewrite visit_count, H0. by repeat case_match.
Qed.

Lemma record_mines_sets (l : list cell) (s : t) :
  mines (foldl mark_mine_result s l) = list_to_set l ∪ mines s ∧
  moves_made (foldl mark_mine_result s l) = list_to_set l ∪ moves_made s.
Proof.
  revert s. induction l as [|m l IH]; intros s; simpl.
  - split; set_solver.
  - destruct (IH (mark_mine_result s m)) as [-> ->]. unfold mark_mine_result.
    destruct (pass_frame (set_mines ({[m]} ∪ mines s) s) m 0 true) as (-> & -> & _).
    simpl. split; set_solver.
Qed.

Lemma add_knowledge_result_sets (s : t) (c : cell) (count : Z) (b : bool) :
  mines (add_knowledge_result s c count b)
    = (add_knowledge_pass s c count b).2 ∪ mines s ∧
  moves_made (add_knowledge_result s c count b)
    = (add_knowledge_pass s c count b).2 ∪ ({[c]} ∪ moves_made s).
Proof.
  unfold add_knowledge_result.
  destruct (record_mines_sets (elements (add_knowledge_pass s c count b).2)
              (add_knowledge_pass s c count b).1) as [-> ->].
  destruct (pass_frame s c count b) as (-> & -> & _).
  by rewrite list_to_set_elements_L.
Qed.

(** X7: [update(c, 0)] puts in [safes] every scanned cell other than
    [c] that was neither opened nor a known mine before the call. *)
Theorem update_zero_marks_safe (s : t) (c : cell) :
  ∃ s', update s c 0 = Some s' ∧
    list_to_set (box s c) ∖ {[c]} ∖ moves_made s ∖ mines s ⊆ safes s'.
Proof.
  exists (add_knowledge_result s c 0 false). split; [apply update_result|].
  assert (list_to_set (box s c) ∖ {[c]} ∖ moves_made s ∖ mines s
          ⊆ safes (add_knowledge_pass s c 0 false).1) as Hpass.
  { unfold add_knowledge_pass.
    set (s0 := set_moves_made ({[c]} ∪ moves_made s) s).
    change (box s0 c) with (box s c).
    pose proof (scan_count_zero c false (box s c) (Scan s0 ∅ ∅ 0) eq_refl) as H0.
    destruct (scan_frame c false (box s c) (Scan s0 ∅ ∅ 0))
      as (Hmv & Hmi & _ & _ & _ & Hnb & _).
    simpl in Hmv, Hmi, Hnb.
    rewrite H0. simpl. rewrite andb_false_r. simpl.
    rewrite mark_safe_all. simpl. rewrite Hmv, Hmi, Hnb. set_solver. }
  etrans; [exact Hpass|].
  unfold add_knowledge_result. apply foldl_grows, mark_mine_result_grows.
Qed.

(** X8: when every known mine is among the moves made (as in every
    state the calls reach from a fresh agent), [update(c, count)] adds
    to [moves_made] exactly [c] and the cells it newly records as
    mines. *)
Theorem update_moves_made (s : t) (c : cell) (count : Z) :
  mines s ⊆ moves_made s →
  ∃ s', update s c count = Some s' ∧
    moves_made s' = {[c]} ∪ moves_made s ∪ (mines s' ∖ mines s).
Proof.
  intros Hsub. exists (add_knowledge_result s c count false).
  split; [apply update_result|].
  destruct (add_knowledge_result_sets s c count false) as [-> ->].
  apply set_eq. intros x. rewrite !elem_of_union, elem_of_difference, !elem_of_union.
  destruct (decide (x ∈ mines s)); set_solver.
Qed.

Lemma update_moves_made_witness :
  mines (init 8 8) ⊆ moves_made (init 8 8) ∧
  ∃ s', update (init 8 8) (0, 0) 3 = Some s' ∧
    moves_made s' = {[(0, 0)]} ∪ moves_made (init 8 8) ∪ (mines s' ∖ mines (init 8 8)).
Proof.
  split; [done|]. apply (update_moves_made (init 8 8) (0, 0) 3). done.
Defined.

(** ** The board *)

Lemma length_grid (li lj : list Z) :
  length (i ← li; j ← lj; [(i, j)]) = (length li * length lj)%nat.
Proof.
  induction li as [|i li IH]; [done|].
  rewrite bind_cons, List.length_app, IH. cbn [length Nat.mul]. f_equal.
  clear. induction lj as [|j lj IH]; [done|].
  rewrite bind_cons. cbn [app length]. by rewrite IH.
Qed.

Lemma length_window (c : cell) : length (Minesweeper.window c) = 9%nat.
Proof.
  unfold Minesweeper.window. rewrite length_grid. unfold range.
  rewrite !length_seqZ. lia.
Qed.

(** X9: [nearby_mines(cell)] is the number of cells holding a mine
    among the cells within one row and one column of [cell], [cell]
    itself excluded, that lie on the board; it is between 0 and 8. *)
Theorem nearby_mines_spec (g : Minesweeper.t) (c : cell) :
  Minesweeper.nearby_mines g c
    = Z.of_nat (size (spec_neighbors (Minesweeper.height g) (Minesweeper.width g) c
                      ∩ mine_set g)) ∧
  0 ≤ Minesweeper.nearby_mines g c ≤ 8.
Proof.
  assert (Minesweeper.nearby_mines g c
    = Z.of_nat (size (spec_neighbors (Minesweeper.height g) (Minesweeper.width g) c
                      ∩ mine_set g))) as Heq.
  { unfold Minesweeper.nearby_mines.
    rewrite nearby_step_count, Z.add_0_l. f_equal.
    rewrite <- (size_list_to_set (C := gset cell))
      by apply NoDup_filter, NoDup_window.
    f_equal. apply set_eq. intros n. unfold spec_neighbors.
    rewrite elem_of_list_to_set, list_elem_of_filter, elem_of_intersection,
      elem_of_list_to_set, list_elem_of_filter, elem_of_mine_set.
    unfold Minesweeper.in_bounds, Minesweeper.is_mine.
    rewrite !andb_true_iff, !Z.leb_le, !Z.ltb_lt.
    destruct n as [i j]; simpl. intuition lia. }
  split; [exact Heq|]. rewrite Heq. split; [lia|].
  assert (spec_neighbors (Minesweeper.height g) (Minesweeper.width g) c ∩ mine_set g
          ⊆ list_to_set (Minesweeper.window c) ∖ {[c]}) as Hsub.
  { intros n [Hn _]%elem_of_intersection. unfold spec_neighbors in Hn.
    apply elem_of_list_to_set, list_elem_of_filter in Hn as [(Hne & _) Hwin].
    apply elem_of_difference. split; [by apply elem_of_list_to_set|].
    by rewrite elem_of_singleton. }
  apply subseteq_size in Hsub.
  pose proof (size_difference (list_to_set (Minesweeper.window c) : gset cell) {[c]})
    as Hdiff.
  rewrite Hdiff in Hsub.
  - rewrite size_singleton, size_list_to_set, length_window in Hsub
      by apply NoDup_window. lia.
  - apply singleton_subseteq_l, elem_of_list_to_set, elem_of_window. lia.
Qed.

(** ** Honest games on a square board *)

(** X10: in an honest game on a square board every stored sentence is
    flagged exactly when its cell is a known mine, and the count of a
    sentence that is not flagged is the number of true mines among its
    cells, hence between 0 and the number of its cells. *)
Theorem honest_play_sentences (g : Minesweeper.t) (moves : list (cell * Z)) :
  Minesweeper.height g = Minesweeper.width g →
  Forall (honest g) moves →
  ∃ s, play (init (Minesweeper.height g) (Minesweeper.width g)) moves = Some s ∧
    ∀ n t, knowledge s !! n = Some t →
      (Sentence.is_mine t = true ↔ n ∈ mines s) ∧
      (Sentence.is_mine t = false →
         Sentence.count t = Z.of_nat (size (Sentence.cells t ∩ mine_set g)) ∧
         0 ≤ Sentence.count t ≤ Z.of_nat (size (Sentence.cells t))).
Proof.
  intros Hsq Hmoves.
  destruct (init_sound (mine_set g) (Minesweeper.height g) (Minesweeper.width g))
    as [Hs Hfl].
  destruct (play_sound g moves (init (Minesweeper.height g) (Minesweeper.width g))
              Hsq eq_refl eq_refl Hmoves Hs Hfl)
    as (s & Hplay & [H1 H2 H3 H4 H5] & Hflag).
  exists s. split; [done|]. intros n t Hn. split.
  - split.
    + intros Ht. by destruct (H5 n t Hn Ht).
    + intros Hmine. destruct (Hflag n Hmine) as (t' & Hn' & Ht'); [done|]. congruence.
  - intros Ht. rewrite (H4 n t Hn Ht). split; [done|]. split; [lia|].
    apply inj_le, subseteq_size. set_solver.
Qed.

Lemma honest_play_sentences_witness :
  Minesweeper.height (Minesweeper.place 8 8 [(1, 1)])
    = Minesweeper.width (Minesweeper.place 8 8 [(1, 1)]) ∧
  Forall (honest (Minesweeper.place 8 8 [(1, 1)]))
         [((0, 1), 1); ((1, 0), 1); ((0, 0), 1)] ∧
  ∃ s, play (init 8 8) [((0, 1), 1); ((1, 0), 1); ((0, 0), 1)] = Some s ∧
    ∀ n t, knowledge s !! n = Some t →
      (Sentence.is_mine t = true ↔ n ∈ mines s) ∧
      (Sentence.is_mine t = false →
         Sentence.count t
           = Z.of_nat (size (Sentence.cells t ∩ mine_set (Minesweeper.place 8 8 [(1, 1)]))) ∧
         0 ≤ Sentence.count t ≤ Z.of_nat (size (Sentence.cells t))).
Proof.
  split; [reflexivity|]. split; [repeat constructor|].
  apply (honest_play_sentences (Minesweeper.place 8 8 [(1, 1)])); [reflexivity|].
  repeat constructor.
Defined.

(** X11: in an honest game on a square board the cells
    [make_safe_move] chooses from, those of [safes] that are not in
    [moves_made], hold no mine; so a cell it returns, where
    [random.sample] gives one, holds no mine. *)
Theorem honest_safe_move (g : Minesweeper.t) (moves : list (cell * Z)) (s : t) :
  Minesweeper.height g = Minesweeper.width g →
  Forall (honest g) moves →
  play (init (Minesweeper.height g) (Minesweeper.width g)) moves = Some s →
  (∀ c, c ∈ safes s ∖ moves_made s → c ∉ mine_set g) ∧
  (∀ r c, make_safe_move r s = Returned (Some c) → c ∉ mine_set g).
Proof.
  intros Hsq Hmoves Hplay.
  destruct (init_sound (mine_set g) (Minesweeper.height g) (Minesweeper.width g))
    as [Hs Hfl].
  destruct (play_sound g moves (init (Minesweeper.height g) (Minesweeper.width g))
              Hsq eq_refl eq_refl Hmoves Hs Hfl)
    as (s' & Hplay' & [H1 H2 H3 H4 H5] & _).
  rewrite Hplay in Hplay'. injection Hplay' as <-.
  assert (∀ c, c ∈ safes s ∖ moves_made s → c ∉ mine_set g) as Hsafe by set_solver.
  split; [exact Hsafe|].
  intros r c Hmove. apply Hsafe. unfold make_safe_move in Hmove.
  destruct (elements (safes s ∖ moves_made s)) as [|a l] eqn:Hel; [done|].
  destruct r as [pick|]; [|done]. injection Hmove as Hmove.
  rewrite <- Hel in Hmove. by apply elem_of_elements_lookup in Hmove.
Qed.

Lemma honest_safe_move_witness :
  Minesweeper.height (Minesweeper.place 8 8 [(1, 1)])
    = Minesweeper.width (Minesweeper.place 8 8 [(1, 1)]) ∧
  Forall (honest (Minesweeper.place 8 8 [(1, 1)]))
         [((0, 1), 1); ((1, 0), 1); ((0, 0), 1)] ∧
  play (init 8 8) [((0, 1), 1); ((1, 0), 1); ((0, 0), 1)]
    = Some (foldl (λ s k, add_knowledge_result s k.1 k.2 false) (init 8 8)
                  [((0, 1), 1); ((1, 0), 1); ((0, 0), 1)]) ∧
  (∀ c, c ∈ safes (foldl (λ s k, add_knowledge_result s k.1 k.2 false) (init 8 8)
                         [((0, 1), 1); ((1, 0), 1); ((0, 0), 1)])
            ∖ moves_made (foldl (λ s k, add_knowledge_result s k.1 k.2 false) (init 8 8)
                         [((0, 1), 1); ((1, 0), 1); ((0, 0), 1)]) →
        c ∉ mine_set (Minesweeper.place 8 8 [(1, 1)])) ∧
  (∀ r c, make_safe_move r (foldl (λ s k, add_knowledge_result s k.1 k.2 false) (init 8 8)
                         [((0, 1), 1); ((1, 0), 1); ((0, 0), 1)]) = Returned (Some c) →
        c ∉ mine_set (Minesweeper.place 8 8 [(1, 1)])).
Proof.
  assert (Forall (honest (Minesweeper.place 8 8 [(1, 1)]))
            [((0, 1), 1); ((1, 0), 1); ((0, 0), 1)]) as Hmoves
    by repeat constructor.
  assert (play (init 8 8) [((0, 1), 1); ((1, 0), 1); ((0, 0), 1)]
    = Some (foldl (λ s k, add_knowledge_result s k.1 k.2 false) (init 8 8)
                  [((0, 1), 1); ((1, 0), 1); ((0, 0), 1)])) as Hplay
    by apply play_result.
  split; [reflexivity|]. split; [exact Hmoves|]. split; [exact Hplay|].
  exact (honest_safe_move (Minesweeper.place 8 8 [(1, 1)]) _ _ eq_refl Hmoves Hplay).
Defined.


(** ** Stored sentences name only unknown neighbours *)

Lemma box_sym (s : t) (n c : cell) :
  in_scan_range s n → c ∈ box s n → n ∈ box s c.
Proof. unfold in_scan_range. rewrite !elem_of_box. lia. Qed.

Lemma box_in_range (s : t) (n c : cell) : c ∈ box s n → in_scan_range s c.
Proof. unfold in_scan_range. rewrite elem_of_box. lia. Qed.

Lemma shrink_cells (c : cell) (b : bool) (t : Sentence.t) :
  Sentence.cells (shrink c b t) = Sentence.cells t ∖ {[c]}.
Proof. unfold shrink. case_decide; simpl; set_solver. Qed.

(** The cells the scan collects as mines are cells of stored sentences. *)
Lemma scan_mines_within (Q : cell → Prop) (c : cell) (b : bool) (l : list cell)
    (sc : scan) :
  (∀ n t x, knowledge (sc_self sc) !! n = Some t → x ∈ Sentence.cells t → Q x) →
  (∀ x, x ∈ sc_mines sc → Q x) →
  ∀ x, x ∈ sc_mines (foldl (visit c b) sc l) → Q x.
Proof.
  revert sc. induction l as [|a l IH]; intros sc HK Hms; simpl; [done|].
  apply IH.
  - intros n t x. rewrite visit_knowledge, lookup_alter.
    case_decide; [|by apply HK]. subst.
    destruct (knowledge (sc_self sc) !! n) as [t0|] eqn:Hn; [|done].
    simpl. intros [= <-]. rewrite shrink_cells. intros Hx. apply (HK n t0 x Hn).
    set_solver.
  - intros x. unfold visit.
    destruct (knowledge (sc_self sc) !! a) as [t0|] eqn:Ha; [|by apply Hms].
    destruct (decide (c ∈ Sentence.cells t0)); [|by apply Hms].
    destruct b; simpl; [by apply Hms|].
    case_match; [|by apply Hms].
    intros [Hx|Hx]%elem_of_union; [by apply Hms|].
    apply (HK a t0 x Ha). set_solver.
Qed.

Lemma box_dims (s s' : t) (c : cell) :
  height s' = height s → width s' = width s → box s' c = box s c.
Proof. intros Hh Hw. destruct c as [x y]. unfold box. by rewrite Hh, Hw. Qed.

Lemma pass_exact (s : t) (c : cell) (count : Z) (b : bool) :
  in_scan_range s c →
  (∀ n t, knowledge s !! n = Some t → in_scan_range s n) →
  (∀ n t, knowledge s !! n = Some t → Sentence.cells t ⊆ list_to_set (box s n)) →
  (∀ n t, knowledge s !! n = Some t →
     Sentence.cells t ∖ {[c]}
     = list_to_set (box s n) ∖ ({[c]} ∪ moves_made s) ∖ mines s) →
  exact (add_knowledge_pass s c count b).1 ∧
  ∀ m, m ∈ (add_knowledge_pass s c count b).2 →
       in_scan_range (add_knowledge_pass s c count b).1 m.
Proof.
  intros Hc Hkeys Hbox Hpre.
  destruct (pass_frame s c count b) as (Hmv & Hmi & Hh & Hw & _).
  assert (∀ x, in_scan_range (add_knowledge_pass s c count b).1 x ↔ in_scan_range s x)
    as Hrange by (intros x; unfold in_scan_range; by rewrite Hh, Hw).
  split; [split|].
  - intros n t' Hn. apply Hrange. destruct (decide (n = c)) as [->|Hne]; [done|].
    rewrite pass_knowledge_lookup in Hn by done.
    destruct (knowledge s !! n) as [t|] eqn:Ht; [by eapply Hkeys|by case_decide].
  - intros n t' Hn. rewrite (box_dims s) by done. rewrite Hmv, Hmi.
    destruct (decide (n = c)) as [->|Hne].
    + pose proof (pass_stored_cells s c count b) as Hcells.
      rewrite Hn in Hcells. simpl in Hcells. injection Hcells as ->.
      clear. set_solver.
    + rewrite pass_knowledge_lookup in Hn by done.
      destruct (decide (n ∈ box s c)) as [Hin|Hnin].
      * destruct (knowledge s !! n) as [t|] eqn:Ht; [|done].
        simpl in Hn. injection Hn as <-. rewrite shrink_cells.
        by apply Hpre.
      * rewrite <- (Hpre n t' Hn).
        assert (c ∉ Sentence.cells t'); [|set_solver].
        intros Hin. apply Hnin. apply box_sym; [by eapply Hkeys|].
        apply (Hbox n t' Hn) in Hin. by apply elem_of_list_to_set in Hin.
  - intros m. intros Hm. apply Hrange. revert Hm. unfold add_knowledge_pass.
    set (s0 := set_moves_made ({[c]} ∪ moves_made s) s).
    change (box s0 c) with (box s c).
    pose proof (scan_mines_within (in_scan_range s) c b (box s c) (Scan s0 ∅ ∅ count))
      as Hscan.
    destruct (scan_frame c b (box s c) (Scan s0 ∅ ∅ count))
      as (_ & _ & _ & _ & _ & Hnb & _).
    simpl in Hscan, Hnb.
    assert (∀ x, x ∈ sc_mines (foldl (visit c b) (Scan s0 ∅ ∅ count) (box s c)) →
                 in_scan_range s x) as Hms.
    { apply Hscan; [|set_solver]. intros n t x Hn Hx.
      apply (Hbox n t Hn) in Hx.
      apply elem_of_list_to_set in Hx. by eapply box_in_range. }
    repeat case_match; simpl; try apply Hms.
    intros [Hm|Hm]%elem_of_union; [by apply Hms|].
    rewrite Hnb in Hm. eapply (box_in_range s c).
    apply (elem_of_list_to_set (C := gset cell)). set_solver.
Qed.

Lemma exact_box (s : t) :
  exact s → ∀ n t, knowledge s !! n = Some t → Sentence.cells t ⊆ list_to_set (box s n).
Proof. intros [_ Hcells] n t Hn. rewrite (Hcells n t Hn). set_solver. Qed.

Lemma mark_mine_result_exact (s : t) (m : cell) :
  in_scan_range s m → exact s → exact (mark_mine_result s m).
Proof.
  intros Hm Hs. pose proof (exact_box s Hs) as Hbox. destruct Hs as [Hkeys Hcells].
  unfold mark_mine_result. apply pass_exact; try done.
  intros n t Hn. simpl. rewrite (Hcells n t Hn). clear. set_solver.
Qed.

Lemma record_mines_exact (l : list cell) (s : t) :
  (∀ m, m ∈ l → in_scan_range s m) → exact s → exact (foldl mark_mine_result s l).
Proof.
  revert s. induction l as [|m l IH]; intros s Hl Hs; simpl; [done|].
  apply IH.
  - intros m' Hm'. destruct (mark_mine_result_dims s m) as [Hh Hw].
    unfold in_scan_range. rewrite Hh, Hw. apply Hl. by right.
  - apply mark_mine_result_exact; [|done]. apply Hl. left.
Qed.

Lemma after_call_dims (s : t) (k : call) :
  height (after_call s k) = height s ∧ width (after_call s k) = width s.
Proof.
  destruct k as [c n|pick| |c|c]; simpl; try done.
  - apply add_knowledge_result_dims.
  - apply mark_mine_result_dims.
Qed.

Lemma after_call_exact (s : t) (k : call) :
  call_in_range (height s) (width s) k → exact s → exact (after_call s k).
Proof.
  intros Hk Hs. destruct k as [c n|pick| |c|c]; simpl in *; try done.
  - unfold add_knowledge_result.
    pose proof (exact_box s Hs) as Hbox. destruct Hs as [Hkeys Hcells].
    destruct (pass_exact s c n false) as [Hp Hms]; try done.
    { intros n' t Hn'. rewrite (Hcells n' t Hn'). clear. set_solver. }
    apply record_mines_exact; [|done].
    intros m Hm%elem_of_elements. by apply Hms.
  - by apply mark_mine_result_exact.
  - destruct Hs as [Hkeys Hcells]. by split.
Qed.

(** X12: when every [update] and [mark_mine] call is for a cell the
    scan can reach (first coordinate below [width], second below
    [height]), then in every state the calls reach from a fresh agent
    the sentence stored for a cell is over exactly the scanned
    neighbours of that cell that are neither opened nor known mines. *)
Theorem sentences_exact (calls : list call) (h w : Z) (s : t) :
  Forall (call_in_range h w) calls →
  run calls (init h w) = Some s →
  ∀ n t, knowledge s !! n = Some t →
    Sentence.cells t = list_to_set (box s n) ∖ moves_made s ∖ mines s.
Proof.
  intros Hcalls. rewrite run_result. intros [= <-].
  assert (exact (foldl after_call (init h w) calls)) as [Hkeys Hcells]; [|done].
  assert (exact (init h w)) as Hinit.
  { split; intros n t Hn; simpl in Hn; by rewrite lookup_empty in Hn. }
  assert (height (init h w) = h ∧ width (init h w) = w) as Hdims by done.
  revert Hinit Hdims. generalize (init h w) as s0.
  induction Hcalls as [|k calls Hk _ IH]; intros s0 Hs0 [Hh Hw]; simpl; [done|].
  apply IH.
  - apply after_call_exact; [by rewrite Hh, Hw|done].
  - destruct (after_call_dims s0 k) as [-> ->]. done.
Qed.

Lemma sentences_exact_witness :
  Forall (call_in_range 8 8) [Update (0, 1) 1; Update (1, 0) 1; Update (0, 0) 1] ∧
  run [Update (0, 1) 1; Update (1, 0) 1; Update (0, 0) 1] (init 8 8)
    = Some (foldl after_call (init 8 8)
              [Update (0, 1) 1; Update (1, 0) 1; Update (0, 0) 1]) ∧
  ∀ n t,
    knowledge (foldl after_call (init 8 8)
                 [Update (0, 1) 1; Update (1, 0) 1; Update (0, 0) 1]) !! n = Some t →
    Sentence.cells t
    = list_to_set (box (foldl after_call (init 8 8)
                          [Update (0, 1) 1; Update (1, 0) 1; Update (0, 0) 1]) n)
        ∖ moves_made (foldl after_call (init 8 8)
                        [Update (0, 1) 1; Update (1, 0) 1; Update (0, 0) 1])
        ∖ mines (foldl after_call (init 8 8)
                   [Update (0, 1) 1; Update (1, 0) 1; Update (0, 0) 1]).
Proof.
  assert (Forall (call_in_range 8 8)
            [Update (0, 1) 1; Update (1, 0) 1; Update (0, 0) 1]) as Hcalls.
  { repeat constructor; simpl; lia. }
  assert (run [Update (0, 1) 1; Update (1, 0) 1; Update (0, 0) 1] (init 8 8)
    = Some (foldl after_call (init 8 8)
              [Update (0, 1) 1; Update (1, 0) 1; Update (0, 0) 1])) as Hrun
    by apply run_result.
  split; [exact Hcalls|]. split; [exact Hrun|].
  exact (sentences_exact _ 8 8 _ Hcalls Hrun).
Defined.

(** ** Building the board *)

Lemma place_lookup (h w : Z) (l : list cell) (i j : nat) :
  Z.of_nat i < h → Z.of_nat j < w →
  ∃ row, Minesweeper.board (Minesweeper.place h w l) !! i = Some row ∧
         row !! j = Some (bool_decide ((Z.of_nat i, Z.of_nat j) ∈ l)).
Proof.
  intros Hi Hj. unfold Minesweeper.place, range. simpl.
  rewrite list_lookup_fmap, lookup_seqZ_lt by lia. simpl.
  eexists. split; [done|].
  rewrite list_lookup_fmap, lookup_seqZ_lt by lia. simpl. done.
Qed.

Lemma place_board_at (h w : Z) (l : list cell) (c : cell) :
  on_board h w c →
  Minesweeper.board_at (Minesweeper.place h w l) c.1 c.2 = bool_decide (c ∈ l).
Proof.
  intros [Hi Hj]. destruct c as [i j]. simpl in *. unfold Minesweeper.board_at.
  destruct (place_lookup h w l (Z.to_nat i) (Z.to_nat j)) as (row & -> & Hrow); [lia|lia|].
  rewrite Hrow. simpl. rewrite !Z2Nat.id by lia. done.
Qed.

Lemma empty_board_place (h w : Z) :
  Game.empty_board h w = Minesweeper.board (Minesweeper.place h w []).
Proof.
  unfold Game.empty_board, Minesweeper.place. simpl.
  apply list_fmap_ext. intros _ i _. apply list_fmap_ext. intros _ j _.
  done.
Qed.

Lemma set_true_place (h w : Z) (l l' : list cell) (d : cell) :
  on_board h w d →
  (∀ x, x ∈ l' ↔ x = d ∨ x ∈ l) →
  Game.set_true (Minesweeper.board (Minesweeper.place h w l)) d.1 d.2
  = Minesweeper.board (Minesweeper.place h w l').
Proof.
  intros [Hi Hj] Hl'. destruct d as [i j]. simpl in *.
  unfold Game.set_true, Minesweeper.place, range. simpl.
  apply list_eq. intros a.
  rewrite list_lookup_alter, !list_lookup_fmap.
  destruct (decide (Z.to_nat i = a)) as [<-|Hne].
  - rewrite lookup_seqZ_lt by lia. simpl. f_equal.
    apply list_eq. intros b.
    destruct (decide (Z.to_nat j = b)) as [<-|Hnb].
    + rewrite list_lookup_insert_eq.
      2:{ rewrite length_fmap, length_seqZ. lia. }
      rewrite list_lookup_fmap, lookup_seqZ_lt by lia. simpl.
      rewrite bool_decide_eq_true_2; [done|]. apply Hl'. left.
      f_equal; lia.
    + rewrite list_lookup_insert_ne by done.
      rewrite !list_lookup_fmap.
      destruct (seqZ 0 (w - 0) !! b) as [jb|] eqn:Hb; [|done]. simpl. f_equal.
      apply lookup_seqZ in Hb as [-> Hb].
      apply bool_decide_ext. rewrite Hl'. split; [by right|].
      intros [[= ? ?]|?]; [lia|done].
  - destruct (seqZ 0 (h - 0) !! a) as [ia|] eqn:Ha; [|done]. simpl. f_equal.
    apply lookup_seqZ in Ha as [-> Ha].
    apply list_fmap_ext. intros _ jb _.
    apply bool_decide_ext. rewrite Hl'. split; [by right|].
    intros [[= ? ?]|?]; [lia|done].
Qed.

Lemma place_rebuild (h w : Z) (l : list cell) :
  Minesweeper.Minesweeper h w (Minesweeper.board (Minesweeper.place h w l))
  = Minesweeper.place h w l.
Proof. done. Qed.

Lemma board_at_placed (h w : Z) (M : gset cell) (b : list (list bool)) (d : cell) :
  b = Minesweeper.board (Minesweeper.place h w (elements M)) →
  on_board h w d →
  Minesweeper.board_at (Minesweeper.Minesweeper h w b) d.1 d.2 = bool_decide (d ∈ M).
Proof.
  intros -> Hd. rewrite place_rebuild, place_board_at by done.
  apply bool_decide_ext, elem_of_elements.
Qed.

Lemma set_true_placed (h w : Z) (M : gset cell) (b : list (list bool)) (d : cell) :
  b = Minesweeper.board (Minesweeper.place h w (elements M)) →
  on_board h w d →
  Game.set_true b d.1 d.2
  = Minesweeper.board (Minesweeper.place h w (elements ({[d]} ∪ M))).
Proof.
  intros -> Hd. apply set_true_place; [done|].
  intros x. rewrite !elem_of_elements. set_solver.
Qed.

Lemma place_mines_built (h w target : Z) (draws : list cell) (M : gset cell)
    (b : list (list bool)) (g : Game.t) :
  Forall (on_board h w) draws →
  b = Minesweeper.board (Minesweeper.place h w (elements M)) →
  Game.place_mines h w target draws b M = Game.Built g →
  Game.base g = Minesweeper.place h w (elements (Game.mines g)) ∧
  Z.of_nat (size (Game.mines g)) = target ∧
  M ⊆ Game.mines g ∧
  Game.mines g ⊆ M ∪ list_to_set draws ∧
  Game.mines_found g = ∅.
Proof.
  intros Hdraws. revert M b.
  induction Hdraws as [|d draws Hd Hdraws IH]; intros M b Hb; simpl.
  - destruct (bool_decide (Z.of_nat (size M) = target)) eqn:Hsz.
    + apply bool_decide_eq_true in Hsz.
      intros [= <-]. simpl. subst b. split_and!; try done. set_solver.
    + by destruct (bool_decide (h ≤ 0) || bool_decide (w ≤ 0)).
  - destruct (bool_decide (Z.of_nat (size M) = target)) eqn:Hsz.
    + apply bool_decide_eq_true in Hsz.
      intros [= <-]. simpl. subst b. split_and!; try done. set_solver.
    + destruct (bool_decide (h ≤ 0) || bool_decide (w ≤ 0)); [done|].
      rewrite (board_at_placed h w M) by done.
      destruct (bool_decide (d ∈ M)) eqn:Hin.
      * intros Hbuilt. destruct (IH M b Hb Hbuilt) as (? & ? & ? & ? & ?).
        split_and!; try done. set_solver.
      * intros Hbuilt.
        destruct (IH ({[d]} ∪ M) _ (set_true_placed h w M b d Hb Hd) Hbuilt)
          as (? & ? & ? & ? & ?).
        split_and!; try done; set_solver.
Qed.

Lemma place_mines_enough (h w target : Z) (draws : list cell) (M : gset cell)
    (b : list (list bool)) :
  Forall (on_board h w) draws →
  b = Minesweeper.board (Minesweeper.place h w (elements M)) →
  Z.of_nat (size M) ≤ target ≤ Z.of_nat (size (M ∪ list_to_set draws)) →
  ∃ g, Game.place_mines h w target draws b M = Game.Built g.
Proof.
  intros Hdraws. revert M b.
  induction Hdraws as [|d draws Hd Hdraws IH]; intros M b Hb Hsz; simpl.
  - rewrite bool_decide_eq_true_2; [by eexists|].
    replace (M ∪ list_to_set []) with M in Hsz by set_solver. lia.
  - destruct (bool_decide (Z.of_nat (size M) = target)) eqn:Hne; [by eexists|].
    apply bool_decide_eq_false in Hne.
    pose proof Hd as [Hd1 Hd2].
    rewrite !bool_decide_eq_false_2 by lia. simpl.
    rewrite (board_at_placed h w M) by done.
    case_bool_decide as Hin.
    + apply IH; [done|].
      replace (M ∪ list_to_set (d :: draws)) with (M ∪ list_to_set draws) in Hsz
        by set_solver.
      done.
    + apply IH; [by apply set_true_placed|].
      rewrite size_union by set_solver. rewrite size_singleton.
      replace ({[d]} ∪ M ∪ list_to_set draws) with (M ∪ list_to_set (d :: draws))
        by set_solver.
      lia.
Qed.

Lemma mine_set_place (h w : Z) (l : list cell) :
  Forall (on_board h w) l → mine_set (Minesweeper.place h w l) = list_to_set l.
Proof.
  intros Hl. apply set_eq. intros n.
  rewrite elem_of_mine_set, elem_of_list_to_set.
  rewrite Forall_forall in Hl.
  assert (Minesweeper.in_bounds (Minesweeper.place h w l) n.1 n.2 = true
          ↔ on_board h w n) as Hbounds.
  { unfold Minesweeper.in_bounds, on_board. simpl.
    rewrite !andb_true_iff, !Z.leb_le, !Z.ltb_lt. tauto. }
  assert (on_board h w n →
          (Minesweeper.is_mine (Minesweeper.place h w l) n = true ↔ n ∈ l)) as Hmine.
  { intros Hn. unfold Minesweeper.is_mine. destruct n as [i j].
    pose proof (place_board_at h w l (i, j) Hn) as Hat. simpl in Hat.
    rewrite Hat. apply bool_decide_eq_true. }
  rewrite Hbounds. split.
  - intros [Hb Hm]. by apply Hmine.
  - intros Hn. split; [by apply Hl|]. apply Hmine; [by apply Hl|done].
Qed.

(** X13: when [__init__] returns, the board it built holds [True]
    exactly at the cells of [mines] (it is the board [place] gives for
    them), [mines] has exactly the requested number of cells, each one
    of the drawn cells, [mines_found] is empty, and the game counts as
    won only if no mine was requested. *)
Theorem init_built (h w target : Z) (draws : list cell) (g : Game.t) :
  Forall (on_board h w) draws →
  Game.init h w target draws = Game.Built g →
  Game.base g = Minesweeper.place h w (elements (Game.mines g)) ∧
  mine_set (Game.base g) = Game.mines g ∧
  Z.of_nat (size (Game.mines g)) = target ∧
  Game.mines g ⊆ list_to_set draws ∧
  Game.mines_found g = ∅ ∧
  (Game.won g = true ↔ target = 0).
Proof.
  intros Hdraws Hinit. unfold Game.init in Hinit.
  destruct (place_mines_built h w target draws ∅ (Game.empty_board h w) g Hdraws)
    as (Hb & Hsz & _ & Hsub & Hf); [|done|].
  { rewrite elements_empty. apply empty_board_place. }
  assert (Game.mines g ⊆ list_to_set draws) as Hsub' by set_solver.
  split_and!; try done.
  - rewrite Hb at 1. rewrite mine_set_place; [apply list_to_set_elements_L|].
    apply Forall_forall. intros x Hx%elem_of_elements.
    rewrite Forall_forall in Hdraws. apply Hdraws.
    apply Hsub' in Hx. by apply elem_of_list_to_set in Hx.
  - unfold Game.won. rewrite Hf, <- Hsz. rewrite bool_decide_eq_true. split.
    + intros <-. by rewrite size_empty.
    + intros Hz. symmetry. apply leibniz_equiv, size_empty_inv. lia.
Qed.

(** X14: [__init__] returns as soon as the random draws have shown as
    many different cells as mines are requested. *)
Theorem init_enough_draws (h w target : Z) (draws : list cell) :
  Forall (on_board h w) draws →
  0 ≤ target ≤ Z.of_nat (size (list_to_set draws : gset cell)) →
  ∃ g, Game.init h w target draws = Game.Built g.
Proof.
  intros Hdraws Hsz. unfold Game.init.
  apply (place_mines_enough h w target draws ∅); [done| |].
  - rewrite elements_empty. apply empty_board_place.
  - rewrite size_empty. replace (∅ ∪ list_to_set draws) with (list_to_set draws : gset cell)
      by set_solver. lia.
Qed.

Lemma place_mines_start (h w target : Z) (draws : list cell) (b : list (list bool))
    (M : gset cell) :
  bool_decide (Z.of_nat (size M) = target) = false →
  bool_decide (h ≤ 0) || bool_decide (w ≤ 0) = true →
  Game.place_mines h w target draws b M = Game.ValueError.
Proof. intros Hne Hguard. destruct draws; simpl; by rewrite Hne, Hguard. Qed.

Lemma place_mines_no_error (h w target : Z) (draws : list cell) (b : list (list bool))
    (M : gset cell) :
  0 < h → 0 < w → Game.place_mines h w target draws b M ≠ Game.ValueError.
Proof.
  intros Hh Hw. revert b M. induction draws as [|d draws IH]; intros b M; simpl.
  - destruct (bool_decide (Z.of_nat (size M) = target)); [done|].
    rewrite !bool_decide_eq_false_2 by lia. done.
  - destruct (bool_decide (Z.of_nat (size M) = target)); [done|].
    rewrite !bool_decide_eq_false_2 by lia. simpl.
    destruct (Minesweeper.board_at _ _ _); apply IH.
Qed.

Lemma size_on_board (h w : Z) (X : gset cell) :
  (∀ x, x ∈ X → on_board h w x) →
  Z.of_nat (size X) ≤ Z.max 0 h * Z.max 0 w.
Proof.
  intros HX.
  assert (X ⊆ list_to_set (i ← range 0 h; j ← range 0 w; [(i, j)])) as Hsub.
  { intros x Hx. apply elem_of_list_to_set, elem_of_grid.
    rewrite !elem_of_range. destruct (HX x Hx). lia. }
  apply subseteq_size in Hsub.
  rewrite size_list_to_set in Hsub by (apply NoDup_grid; apply NoDup_range).
  rewrite length_grid in Hsub. unfold range in Hsub. rewrite !length_seqZ in Hsub.
  nia.
Qed.

(** X15: when a negative number of mines, or more mines than the
    board has cells, is requested, [__init__] never returns: on an
    empty board [random.randrange] raises [ValueError], otherwise the
    loop is still running after any number of draws. *)
Theorem init_too_many (h w target : Z) (draws : list cell) :
  Forall (on_board h w) draws →
  target < 0 ∨ Z.max 0 h * Z.max 0 w < target →
  Game.init h w target draws
  = if bool_decide (h ≤ 0 ∨ w ≤ 0) then Game.ValueError else Game.Looping.
Proof.
  intros Hdraws Htarget. case_bool_decide as Hempty.
  - unfold Game.init. apply place_mines_start.
    + apply bool_decide_eq_false_2. rewrite size_empty. lia.
    + apply orb_true_iff. rewrite !bool_decide_eq_true. done.
  - destruct (Game.init h w target draws) as [g| |] eqn:Hinit; [|exfalso|done].
    + destruct (init_built h w target draws g Hdraws Hinit)
        as (_ & _ & Hsz & Hsub & _).
      assert (Z.of_nat (size (Game.mines g)) ≤ Z.max 0 h * Z.max 0 w); [|lia].
      apply size_on_board. intros x Hx. rewrite Forall_forall in Hdraws.
      apply Hdraws. apply Hsub in Hx. by apply elem_of_list_to_set in Hx.
    + revert Hinit. apply place_mines_no_error; lia.
Qed.

Lemma init_built_witness :
  Forall (on_board 2 2) [(0, 1); (0, 1); (1, 0)] ∧
  Game.init 2 2 2 [(0, 1); (0, 1); (1, 0)]
    = Game.Built (Game.Game (Minesweeper.Minesweeper 2 2 [[false; true]; [true; false]])
                            {[ (0, 1); (1, 0) ]} ∅) ∧
  Game.base (Game.Game (Minesweeper.Minesweeper 2 2 [[false; true]; [true; false]])
                       {[ (0, 1); (1, 0) ]} ∅)
    = Minesweeper.place 2 2 (elements (Game.mines
        (Game.Game (Minesweeper.Minesweeper 2 2 [[false; true]; [true; false]])
                   {[ (0, 1); (1, 0) ]} ∅))) ∧
  mine_set (Game.base (Game.Game (Minesweeper.Minesweeper 2 2 [[false; true]; [true; false]])
                                 {[ (0, 1); (1, 0) ]} ∅))
    = Game.mines (Game.Game (Minesweeper.Minesweeper 2 2 [[false; true]; [true; false]])
                            {[ (0, 1); (1, 0) ]} ∅) ∧
  Z.of_nat (size (Game.mines (Game.Game (Minesweeper.Minesweeper 2 2 [[false; true]; [true; false]])
                            {[ (0, 1); (1, 0) ]} ∅))) = 2 ∧
  Game.mines (Game.Game (Minesweeper.Minesweeper 2 2 [[false; true]; [true; false]])
                            {[ (0, 1); (1, 0) ]} ∅) ⊆ list_to_set [(0, 1); (0, 1); (1, 0)] ∧
  Game.mines_found (Game.Game (Minesweeper.Minesweeper 2 2 [[false; true]; [true; false]])
                            {[ (0, 1); (1, 0) ]} ∅) = ∅ ∧
  (Game.won (Game.Game (Minesweeper.Minesweeper 2 2 [[false; true]; [true; false]])
                            {[ (0, 1); (1, 0) ]} ∅) = true ↔ 2 = 0).
Proof.
  assert (Forall (on_board 2 2) [(0, 1); (0, 1); (1, 0)]) as Hdraws.
  { repeat constructor; simpl; lia. }
  assert (Game.init 2 2 2 [(0, 1); (0, 1); (1, 0)]
    = Game.Built (Game.Game (Minesweeper.Minesweeper 2 2 [[false; true]; [true; false]])
                            {[ (0, 1); (1, 0) ]} ∅)) as Hinit
    by (vm_compute; reflexivity).
  split; [exact Hdraws|]. split; [exact Hinit|].
  exact (init_built 2 2 2 _ _ Hdraws Hinit).
Defined.

Lemma init_enough_draws_witness :
  Forall (on_board 2 2) [(0, 1); (0, 1); (1, 0)] ∧
  0 ≤ 2 ≤ Z.of_nat (size (list_to_set [(0, 1); (0, 1); (1, 0)] : gset cell)) ∧
  ∃ g, Game.init 2 2 2 [(0, 1); (0, 1); (1, 0)] = Game.Built g.
Proof.
  assert (Forall (on_board 2 2) [(0, 1); (0, 1); (1, 0)]) as Hdraws.
  { repeat constructor; simpl; lia. }
  assert (0 ≤ 2 ≤ Z.of_nat (size (list_to_set [(0, 1); (0, 1); (1, 0)] : gset cell)))
    as Hsz by (vm_compute; split; discriminate).
  split; [exact Hdraws|]. split; [exact Hsz|].
  exact (init_enough_draws 2 2 2 _ Hdraws Hsz).
Defined.

Lemma init_too_many_witness :
  Forall (on_board 1 1) [(0, 0); (0, 0)] ∧
  (2 < 0 ∨ Z.max 0 1 * Z.max 0 1 < 2) ∧
  Game.init 1 1 2 [(0, 0); (0, 0)]
  = if bool_decide (1 ≤ 0 ∨ 1 ≤ 0) then Game.ValueError else Game.Looping.
Proof.
  assert (Forall (on_board 1 1) [(0, 0); (0, 0)]) as Hdraws.
  { repeat constructor; simpl; lia. }
  assert (2 < 0 ∨ Z.max 0 1 * Z.max 0 1 < 2) as Hmany by (right; lia).
  split; [exact Hdraws|]. split; [exact Hmany|].
  exact (init_too_many 1 1 2 _ Hdraws Hmany).
Defined.

(** ** The older copy of the file, proved *)

Section copy.
Context (iter : gset Copy.value → list Copy.value).
Context (Hiter : ∀ X, iter X ≡ₚ elements X).

Lemma extends_refl (s : Copy.t) : extends s s.
Proof. split; set_solver. Qed.

Lemma extends_trans (s1 s2 s3 : Copy.t) : extends s1 s2 → extends s2 s3 → extends s1 s3.
Proof.
  intros [] []. split; try congruence; try (etrans; eassumption).
  intros v [Hv3 Hv1]%elem_of_difference.
  destruct (decide (v ∈ Copy.moves_made s2)); set_solver.
Qed.

Lemma elem_of_iter (X : gset Copy.value) (v : Copy.value) : v ∈ iter X ↔ v ∈ X.
Proof. rewrite (Hiter X). apply elem_of_elements. Qed.

Lemma iter_nil (X : gset Copy.value) : iter X = [] → X = ∅.
Proof.
  intros Hnil. apply set_eq. intros v. rewrite <- elem_of_iter, Hnil. set_solver.
Qed.

(** The agent once a value is recorded and marked safe: the first two
    statements of [add_knowledge]. *)
Lemma add_knowledge_int (d : nat) (s : Copy.t) (z : Z) (count : Z) (b : bool) :
  Copy.add_knowledge iter (S d) s (Copy.Int z) count b
  = Some (Copy.mark_safe
            (Copy.set_moves_made ({[Copy.Int z]} ∪ Copy.moves_made s) s) (Copy.Int z),
          Copy.TypeError).
Proof. done. Qed.

Lemma mark_mine_int (d : nat) (s : Copy.t) (z : Z) :
  ∃ s', Copy.mark_mine iter (S (S d)) s (Copy.Int z) = Some (s', Copy.TypeError) ∧
        extends s s' ∧ Copy.knowledge s' = Copy.knowledge s ∧
        Copy.Int z ∈ Copy.mines s' ∧ Copy.Int z ∈ Copy.safes s' ∧
        Copy.Int z ∈ Copy.moves_made s'.
Proof.
  eexists. split; [done|]. simpl. split_and!; try done; try set_solver.
  split; simpl; set_solver.
Qed.

(** Marking the members of a set of integers as mines: the first one
    raises. *)
Lemma mark_ints (d : nat) (l : list Copy.value) (s : Copy.t) :
  Forall (λ v, ∃ z, v = Copy.Int z) l →
  ∃ s', Copy.for_each (Copy.mark_mine iter (S (S d))) l s
          = Some (s', if l is [] then Copy.Returned else Copy.TypeError) ∧
        extends s s' ∧ Copy.knowledge s' = Copy.knowledge s.
Proof.
  intros Hl. destruct Hl as [|v l [z ->] _].
  - exists s. split; [done|]. split; [apply extends_refl|done].
  - destruct (mark_mine_int d s z) as (s' & Hmm & Hext & HK & _).
    exists s'. cbn [Copy.for_each]. rewrite Hmm. done.
Qed.

Lemma set_knowledge_id (s : Copy.t) (K : gmap cell Copy.sentence) :
  K = Copy.knowledge s → Copy.set_knowledge K s = s.
Proof. intros ->. by destruct s. Qed.

Lemma coords_ints (s : Copy.t) (n : cell) (t : Copy.sentence) :
  coords s → Copy.knowledge s !! n = Some t →
  Forall (λ v, ∃ z, v = Copy.Int z) (iter (Copy.cells t)) ∧ iter (Copy.cells t) ≠ [] ∧
  ∀ c, Copy.Cell c ∉ Copy.cells t.
Proof.
  intros Hs Hn. specialize (Hs n t Hn). split_and!.
  - apply Forall_forall. intros v Hv%elem_of_iter. rewrite Hs in Hv.
    apply elem_of_union in Hv as [->%elem_of_singleton| ->%elem_of_singleton]; by eexists.
  - intros Hnil%iter_nil. rewrite Hs in Hnil. set_solver.
  - intros c. rewrite Hs. set_solver.
Qed.

Lemma coords_same (s s' : Copy.t) :
  Copy.knowledge s' = Copy.knowledge s → coords s → coords s'.
Proof. unfold coords. by intros ->. Qed.

Lemma visit_coords (d : nat) (c : cell) (sc : Copy.t * gset Copy.value) (n : cell) :
  coords sc.1 →
  ∃ s' o, Copy.visit iter (Copy.mark_mine iter (S (S d))) c false sc n
            = Some ((s', {[Copy.Cell n]} ∪ sc.2), o) ∧
    extends sc.1 s' ∧ Copy.knowledge s' = Copy.knowledge sc.1 ∧
    (o = Copy.TypeError ↔ trigger sc.1 c n).
Proof.
  intros Hs. destruct sc as [s nb]. cbn [fst snd] in *. unfold Copy.visit, trigger.
  cbn [fst snd].
  destruct (decide (n = c)) as [->|Hne].
  { exists s, Copy.Returned. split_and!; try done; [apply extends_refl|].
    split; [done|]. by intros [? _]. }
  destruct (Copy.knowledge s !! n) as [t|] eqn:Hn.
  2:{ exists s, Copy.Returned. split_and!; try done; [apply extends_refl|].
      split; [done|]. by intros (_ & t & ? & _). }
  destruct (coords_ints s n t Hs Hn) as (Hints & Hne' & Hnc).
  rewrite decide_False by apply Hnc.
  rewrite set_knowledge_id by (by apply insert_id).
  case_bool_decide as Hsz.
  - destruct (mark_ints d (iter (Copy.cells t)) s Hints) as (s' & -> & Hext & HK).
    exists s', Copy.TypeError. destruct (iter (Copy.cells t)); [done|].
    split_and!; try done. split; [|done]. intros _. split; [done|]. by exists t.
  - exists s, Copy.Returned. split_and!; try done; [apply extends_refl|].
    split; [done|]. intros (_ & t' & [= <-] & ?). done.
Qed.

Lemma scan_coords (d : nat) (c : cell) (l : list cell) (s : Copy.t)
    (nb : gset Copy.value) :
  coords s →
  ∃ s' nb' o,
    Copy.for_each (Copy.visit iter (Copy.mark_mine iter (S (S d))) c false) l (s, nb)
      = Some ((s', nb'), o) ∧
    extends s s' ∧ Copy.knowledge s' = Copy.knowledge s ∧
    (o = Copy.Returned → nb' = list_to_set (Copy.Cell <$> l) ∪ nb) ∧
    (o = Copy.TypeError ↔ ∃ n, n ∈ l ∧ trigger s c n).
Proof.
  revert s nb. induction l as [|n l IH]; intros s nb Hs.
  - exists s, nb, Copy.Returned. split_and!; try done; [apply extends_refl|set_solver|].
    split; [done|]. intros (n & Hn & _). by apply not_elem_of_nil in Hn.
  - destruct (visit_coords d c (s, nb) n Hs) as (s1 & o1 & Hv & Hext1 & HK1 & Ho1).
    cbn [fst snd] in *. cbn [Copy.for_each]. rewrite Hv. destruct o1.
    + destruct (IH s1 ({[Copy.Cell n]} ∪ nb) (coords_same _ _ HK1 Hs))
        as (s' & nb' & o & -> & Hext & HK & Hnb & Ho).
      exists s', nb', o. split_and!; try done.
      * by eapply extends_trans.
      * congruence.
      * intros Hret. rewrite (Hnb Hret). set_solver.
      * rewrite Ho. unfold trigger in *. rewrite HK1. split.
        -- intros (n' & Hn' & Htr). exists n'. split; [by right|done].
        -- intros (n' & [->|Hn']%elem_of_cons & Htr).
           ++ destruct Ho1 as [_ Ho1]. by specialize (Ho1 Htr).
           ++ by exists n'.
    + exists s1, ({[Copy.Cell n]} ∪ nb), Copy.TypeError. split_and!; try done.
      split; [|done]. intros _. exists n. split; [left|]. by apply Ho1.
Qed.

Lemma foldl_mark_safe_extends (l : list Copy.value) (s : Copy.t) :
  extends s (foldl Copy.mark_safe s l) ∧
  Copy.knowledge (foldl Copy.mark_safe s l) = Copy.knowledge s.
Proof.
  revert s. induction l as [|v l IH]; intros s; simpl.
  - split; [apply extends_refl|done].
  - destruct (IH (Copy.mark_safe s v)) as [Hext HK]. split; [|by rewrite HK].
    eapply extends_trans; [|exact Hext]. split; simpl; set_solver.
Qed.

Lemma add_knowledge_cell (d : nat) (s : Copy.t) (c : cell) (count : Z) (b : bool) :
  coords s →
  count < 0 ∨ final_ok iter (S (S d)) c →
  ∃ s' o, Copy.add_knowledge iter (S (S (S d))) s (Copy.Cell c) count b = Some (s', o) ∧
    extends s s' ∧ coords s' ∧
    Copy.Cell c ∈ Copy.moves_made s' ∧ Copy.Cell c ∈ Copy.safes s' ∧
    (o = Copy.Returned →
       Copy.knowledge s' !! c = Some (Copy.Sentence {[Copy.Int c.1; Copy.Int c.2]} count false)) ∧
    ((∃ n, n ∈ Copy.box s c ∧ trigger s c n) → o = Copy.TypeError) ∧
    (count < 0 → ∀ n, n ≠ c → Copy.knowledge s' !! n = Copy.knowledge s !! n).
Proof.
  intros Hs Hfin.
  change (Copy.add_knowledge iter (S (S (S d))) s (Copy.Cell c) count b)
    with (Copy.add_knowledge_body iter (Copy.mark_mine iter (S (S d))) s
            (Copy.Cell c) count b).
  unfold Copy.add_knowledge_body.
  set (s0 := Copy.mark_safe
               (Copy.set_moves_made ({[Copy.Cell c]} ∪ Copy.moves_made s) s) (Copy.Cell c)).
  assert (extends s s0) as Hext0 by (split; simpl; set_solver).
  assert (coords s0) as Hs0 by done.
  assert (Copy.Cell c ∈ Copy.moves_made s0 ∧ Copy.Cell c ∈ Copy.safes s0) as [Hmv0 Hsf0]
    by (simpl; set_solver).
  destruct (scan_coords d c (Copy.box s0 c) s0 ∅ Hs0)
    as (s1 & nb & o & -> & Hext1 & HK1 & Hnb & Ho).
  assert (extends s s1) as Hext by (by eapply extends_trans).
  assert (coords s1) as Hs1 by (by eapply coords_same).
  assert (Copy.Cell c ∈ Copy.moves_made s1 ∧ Copy.Cell c ∈ Copy.safes s1) as [Hmv1 Hsf1].
  { destruct Hext1. set_solver. }
  assert (Copy.knowledge s1 = Copy.knowledge s) as HK by done.
  destruct o.
  2:{ exists s1, Copy.TypeError. split; [done|]. split; [done|]. split; [done|].
      split; [done|]. split; [done|]. split; [done|]. split; [done|].
      intros _ n Hn. by rewrite HK. }
  set (nbrs := nb ∖ Copy.safes s1 ∖ Copy.mines s1).
  set (s2 := Copy.set_knowledge
               (<[c:=Copy.new_sentence c count false]> (Copy.knowledge s1)) s1).
  assert (extends s1 s2) as Hext2.
  { split; simpl; try set_solver. }
  assert (coords s2) as Hs2.
  { intros n t. simpl. destruct (decide (c = n)) as [->|Hne].
    - rewrite lookup_insert_eq. by intros [= <-].
    - rewrite lookup_insert_ne by done. apply Hs1. }
  assert (Copy.knowledge s2 !! c
          = Some (Copy.Sentence {[Copy.Int c.1; Copy.Int c.2]} count false)) as Hc2
    by (simpl; by rewrite lookup_insert_eq).
  assert ((∃ n, n ∈ Copy.box s c ∧ trigger s c n) → Copy.Returned = Copy.TypeError)
    as Htrig.
  { intros Hex. apply Ho. exact Hex. }
  assert (∀ n, n ≠ c → Copy.knowledge s2 !! n = Copy.knowledge s !! n) as Hframe.
  { intros n Hn. simpl. rewrite lookup_insert_ne by done. by rewrite HK. }
  case_bool_decide as Hsz.
  - destruct Hfin as [Hneg|Hfin]; [lia|].
    destruct (Hfin s2 (iter nbrs) Hs2) as (s3 & o3 & -> & Hext3 & Hs3 & Hc3).
    { rewrite elem_of_iter. unfold nbrs. set_solver. }
    exists s3, o3. split; [done|].
    split; [eapply extends_trans; [exact Hext|]; by eapply extends_trans|].
    split; [done|].
    split; [destruct Hext3, Hext2; set_solver|].
    split; [destruct Hext3, Hext2; set_solver|].
    split; [intros _; by rewrite Hc3|].
    split; [intros Hex; by specialize (Htrig Hex)|].
    intros Hneg. lia.
  - destruct (count =? 0) eqn:Hz.
    + destruct (foldl_mark_safe_extends (iter nbrs) s2) as [Hext3 HK3].
      eexists _, Copy.Returned. split; [done|].
      split; [eapply extends_trans; [exact Hext|]; by eapply extends_trans|].
      split; [by eapply coords_same|].
      split; [destruct Hext3, Hext2; set_solver|].
      split; [destruct Hext3, Hext2; set_solver|].
      split; [intros _; by rewrite HK3|].
      split; [exact Htrig|].
      intros _ n Hn. rewrite HK3. by apply Hframe.
    + exists s2, Copy.Returned. split; [done|].
      split; [by eapply extends_trans|].
      split; [done|].
      split; [destruct Hext2; set_solver|].
      split; [destruct Hext2; set_solver|].
      split; [done|].
      split; [exact Htrig|].
      intros _. apply Hframe.
Qed.

Lemma mark_mine_any (d : nat) (s : Copy.t) (v : Copy.value) :
  coords s →
  ∃ s' o, Copy.mark_mine iter (S (S (S (S d)))) s v = Some (s', o) ∧
    extends s s' ∧ coords s' ∧
    v ∈ Copy.mines s' ∧ v ∈ Copy.safes s' ∧ v ∈ Copy.moves_made s' ∧
    ∀ n, Copy.Cell n ≠ v → Copy.knowledge s' !! n = Copy.knowledge s !! n.
Proof.
  intros Hs. destruct v as [z|c].
  - destruct (mark_mine_int (S (S d)) s z) as (s' & Hmm & Hext & HK & ? & ? & ?).
    exists s', Copy.TypeError. split_and!; try done.
    + by eapply coords_same.
    + intros n _. by rewrite HK.
  - change (Copy.mark_mine iter (S (S (S (S d)))) s (Copy.Cell c))
      with (Copy.add_knowledge iter (S (S (S d)))
              (Copy.set_mines ({[Copy.Cell c]} ∪ Copy.mines s) s) (Copy.Cell c) (-1) true).
    set (s0 := Copy.set_mines ({[Copy.Cell c]} ∪ Copy.mines s) s).
    assert (extends s s0) as Hext0 by (split; simpl; set_solver).
    destruct (add_knowledge_cell d s0 c (-1) true) as
      (s' & o & -> & Hext & Hs' & Hmv & Hsf & _ & _ & Hframe); [done|left; lia|].
    exists s', o. split; [done|].
    split; [by eapply extends_trans|]. split; [done|].
    split; [destruct Hext; simpl in *; set_solver|].
    split; [done|]. split; [done|].
    intros n Hn. apply Hframe; [lia|congruence].
Qed.

Lemma final_ok_holds (d : nat) (c : cell) : final_ok iter (S (S (S (S d)))) c.
Proof.
  intros s1 l. revert s1. induction l as [|v l IH]; intros s1 Hs1 Hl.
  - exists s1, Copy.Returned. split_and!; try done. apply extends_refl.
  - destruct (mark_mine_any d s1 v Hs1) as (s2 & o & Hmm & Hext & Hs2 & _ & _ & _ & Hframe).
    cbn [Copy.for_each]. rewrite Hmm.
    assert (Copy.knowledge s2 !! c = Copy.knowledge s1 !! c) as Hc.
    { apply Hframe. intros <-. apply Hl. left. }
    destruct o.
    + destruct (IH s2 Hs2) as (s3 & o3 & -> & Hext3 & Hs3 & Hc3).
      { intros Hin. apply Hl. by right. }
      exists s3, o3. split_and!; try done; [by eapply extends_trans|congruence].
    + exists s2, Copy.TypeError. by split_and!.
Qed.

(** X16: in the copy, [add_knowledge(cell, count)] always comes to an
    end (five frames are enough), by returning or by raising
    [TypeError]; either way [cell] is then in [moves_made] and in
    [safes], whatever was in [moves_made] is in [safes] if that held
    before, and when the call returns the sentence stored for [cell] is
    over the two coordinates of [cell] with the count as given. *)
Theorem copy_add_knowledge (depth : nat) (s : Copy.t) (c : cell) (count : Z) (b : bool) :
  coords s → (5 ≤ depth)%nat →
  ∃ s' o, Copy.add_knowledge iter depth s (Copy.Cell c) count b = Some (s', o) ∧
    Copy.Cell c ∈ Copy.moves_made s' ∧ Copy.Cell c ∈ Copy.safes s' ∧
    (Copy.moves_made s ⊆ Copy.safes s → Copy.moves_made s' ⊆ Copy.safes s') ∧
    coords s' ∧
    (o = Copy.Returned →
       Copy.knowledge s' !! c
       = Some (Copy.Sentence {[Copy.Int c.1; Copy.Int c.2]} count false)).
Proof.
  intros Hs Hd. destruct depth as [|[|[|[|[|d]]]]]; try lia.
  destruct (add_knowledge_cell (S (S d)) s c count b Hs) as
    (s' & o & Hak & Hext & Hs' & Hmv & Hsf & Hc & _); [right; apply final_ok_holds|].
  exists s', o. split_and!; try done.
  intros Hsub. destruct Hext as [_ _ Hmoves _ Hsafes Hnew _].
  intros v Hv. destruct (decide (v ∈ Copy.moves_made s)); set_solver.
Qed.

(** X17: in the copy, [mark_mine(cell)] always comes to an end (four
    frames are enough) and leaves [cell] in [mines], in [safes] and in
    [moves_made]. *)
Theorem copy_mark_mine (depth : nat) (s : Copy.t) (v : Copy.value) :
  coords s → (4 ≤ depth)%nat →
  ∃ s' o, Copy.mark_mine iter depth s v = Some (s', o) ∧
    v ∈ Copy.mines s' ∧ v ∈ Copy.safes s' ∧ v ∈ Copy.moves_made s'.
Proof.
  intros Hs Hd. destruct depth as [|[|[|[|d]]]]; try lia.
  destruct (mark_mine_any d s v Hs) as (s' & o & Hmm & _ & _ & ? & ? & ? & _).
  by exists s', o.
Qed.

(** X18: in the copy, [add_knowledge(cell, count)] raises [TypeError]
    whenever a scanned cell other than [cell] has a stored sentence
    whose count equals the number of its cells: those cells are bare
    coordinates, and the first one handed to [mark_mine] cannot be
    unpacked. *)
Theorem copy_type_error (depth : nat) (s : Copy.t) (c n : cell) (count : Z) (b : bool)
    (t : Copy.sentence) :
  coords s → (5 ≤ depth)%nat →
  n ∈ Copy.box s c → n ≠ c →
  Copy.knowledge s !! n = Some t →
  Z.of_nat (size (Copy.cells t)) = Copy.count t →
  ∃ s', Copy.add_knowledge iter depth s (Copy.Cell c) count b = Some (s', Copy.TypeError).
Proof.
  intros Hs Hd Hbox Hne Hn Hsz. destruct depth as [|[|[|[|[|d]]]]]; try lia.
  destruct (add_knowledge_cell (S (S d)) s c count b Hs) as
    (s' & o & Hak & _ & _ & _ & _ & _ & Htrig & _); [right; apply final_ok_holds|].
  exists s'. rewrite Hak. f_equal. f_equal. apply Htrig.
  exists n. split; [done|]. split; [done|]. by exists t.
Qed.
End copy.

Lemma copy_add_knowledge_witness :
  (∀ X : gset Copy.value, elements X ≡ₚ elements X) ∧
  coords (Copy.init 8 8) ∧ (5 ≤ 5)%nat ∧
  ∃ s' o, Copy.add_knowledge elements 5 (Copy.init 8 8) (Copy.Cell (0, 0)) 3 false
            = Some (s', o) ∧
    Copy.Cell (0, 0) ∈ Copy.moves_made s' ∧ Copy.Cell (0, 0) ∈ Copy.safes s' ∧
    (Copy.moves_made (Copy.init 8 8) ⊆ Copy.safes (Copy.init 8 8) →
       Copy.moves_made s' ⊆ Copy.safes s') ∧
    coords s' ∧
    (o = Copy.Returned →
       Copy.knowledge s' !! (0, 0)
       = Some (Copy.Sentence {[Copy.Int (0, 0).1; Copy.Int (0, 0).2]} 3 false)).
Proof.
  assert (∀ X : gset Copy.value, elements X ≡ₚ elements X) as Hiter by done.
  assert (coords (Copy.init 8 8)) as Hs.
  { intros n t Hn. simpl in Hn. by rewrite lookup_empty in Hn. }
  assert (5 ≤ 5)%nat as Hd by lia.
  split; [exact Hiter|]. split; [exact Hs|]. split; [exact Hd|].
  exact (copy_add_knowledge elements Hiter 5 (Copy.init 8 8) (0, 0) 3 false Hs Hd).
Defined.

Lemma copy_mark_mine_witness :
  (∀ X : gset Copy.value, elements X ≡ₚ elements X) ∧
  coords (Copy.init 8 8) ∧ (4 ≤ 4)%nat ∧
  ∃ s' o, Copy.mark_mine elements 4 (Copy.init 8 8) (Copy.Cell (2, 2)) = Some (s', o) ∧
    Copy.Cell (2, 2) ∈ Copy.mines s' ∧ Copy.Cell (2, 2) ∈ Copy.safes s' ∧
    Copy.Cell (2, 2) ∈ Copy.moves_made s'.
Proof.
  assert (∀ X : gset Copy.value, elements X ≡ₚ elements X) as Hiter by done.
  assert (coords (Copy.init 8 8)) as Hs.
  { intros n t Hn. simpl in Hn. by rewrite lookup_empty in Hn. }
  assert (4 ≤ 4)%nat as Hd by lia.
  split; [exact Hiter|]. split; [exact Hs|]. split; [exact Hd|].
  exact (copy_mark_mine elements Hiter 4 (Copy.init 8 8) (Copy.Cell (2, 2)) Hs Hd).
Defined.

Lemma copy_type_error_witness :
  (∀ X : gset Copy.value, elements X ≡ₚ elements X) ∧
  coords (Copy.MinesweeperAI 8 8 {[Copy.Cell (0, 1)]} ∅ {[Copy.Cell (0, 1)]}
            {[ (0, 1) := Copy.Sentence {[Copy.Int 0; Copy.Int 1]} 2 false ]}) ∧
  (5 ≤ 5)%nat ∧
  (0, 1) ∈ Copy.box (Copy.MinesweeperAI 8 8 {[Copy.Cell (0, 1)]} ∅ {[Copy.Cell (0, 1)]}
            {[ (0, 1) := Copy.Sentence {[Copy.Int 0; Copy.Int 1]} 2 false ]}) (0, 0) ∧
  (0, 1) ≠ (0, 0) ∧
  Copy.knowledge (Copy.MinesweeperAI 8 8 {[Copy.Cell (0, 1)]} ∅ {[Copy.Cell (0, 1)]}
            {[ (0, 1) := Copy.Sentence {[Copy.Int 0; Copy.Int 1]} 2 false ]}) !! (0, 1)
    = Some (Copy.Sentence {[Copy.Int 0; Copy.Int 1]} 2 false) ∧
  Z.of_nat (size (Copy.cells (Copy.Sentence {[Copy.Int 0; Copy.Int 1]} 2 false)))
    = Copy.count (Copy.Sentence {[Copy.Int 0; Copy.Int 1]} 2 false) ∧
  ∃ s', Copy.add_knowledge elements 5
          (Copy.MinesweeperAI 8 8 {[Copy.Cell (0, 1)]} ∅ {[Copy.Cell (0, 1)]}
            {[ (0, 1) := Copy.Sentence {[Copy.Int 0; Copy.Int 1]} 2 false ]})
          (Copy.Cell (0, 0)) 1 false
        = Some (s', Copy.TypeError).
Proof.
  assert (∀ X : gset Copy.value, elements X ≡ₚ elements X) as Hiter by done.
  assert (coords (Copy.MinesweeperAI 8 8 {[Copy.Cell (0, 1)]} ∅ {[Copy.Cell (0, 1)]}
            {[ (0, 1) := Copy.Sentence {[Copy.Int 0; Copy.Int 1]} 2 false ]})) as Hs.
  { intros n t Hn. simpl in Hn. apply lookup_singleton_Some in Hn as [<- <-]. done. }
  assert (5 ≤ 5)%nat as Hd by lia.
  assert ((0, 1) ∈ Copy.box
            (Copy.MinesweeperAI 8 8 {[Copy.Cell (0, 1)]} ∅ {[Copy.Cell (0, 1)]}
               {[ (0, 1) := Copy.Sentence {[Copy.Int 0; Copy.Int 1]} 2 false ]}) (0, 0))
    as Hbox by (vm_compute; right; left).
  assert ((0, 1) ≠ ((0, 0) : cell)) as Hne by discriminate.
  assert (Copy.knowledge
            (Copy.MinesweeperAI 8 8 {[Copy.Cell (0, 1)]} ∅ {[Copy.Cell (0, 1)]}
               {[ (0, 1) := Copy.Sentence {[Copy.Int 0; Copy.Int 1]} 2 false ]}) !! (0, 1)
          = Some (Copy.Sentence {[Copy.Int 0; Copy.Int 1]} 2 false)) as Hn
    by (vm_compute; reflexivity).
  assert (Z.of_nat (size (Copy.cells (Copy.Sentence {[Copy.Int 0; Copy.Int 1]} 2 false)))
          = Copy.count (Copy.Sentence {[Copy.Int 0; Copy.Int 1]} 2 false)) as Hsz
    by (vm_compute; reflexivity).
  split; [exact Hiter|]. split; [exact Hs|]. split; [exact Hd|]. split; [exact Hbox|].
  split; [exact Hne|]. split; [exact Hn|]. split; [exact Hsz|].
  exact (copy_type_error elements Hiter 5 _ (0, 0) (0, 1) 1 false _ Hs Hd Hbox Hne Hn Hsz).
Defined.

Lemma grid4_sorted :
  StronglySorted before (i ← range 1 5; j ← range 1 5; [(i, j)]).
Proof. apply (bool_decide_unpack _). vm_compute. exact I. Qed.

(** X19: [make_random_move] of the copy looks at the 16 cells of
    [range(1,5) x range(1,5)] only, whatever the dimensions of the
    board: it returns nothing exactly when all of them are in
    [moves_made], and otherwise the first of them, in row-major order,
    that is not; a cell with a coordinate 0 or above 4 is never
    returned. *)
Theorem copy_make_random_move_spec (s : Copy.t) :
  (Copy.make_random_move s = None ↔
     ∀ c : cell, 1 ≤ c.1 < 5 → 1 ≤ c.2 < 5 → Copy.Cell c ∈ Copy.moves_made s) ∧
  (∀ c, Copy.make_random_move s = Some c →
     (Copy.Cell c ∉ Copy.moves_made s) ∧ 1 ≤ c.1 < 5 ∧ 1 ≤ c.2 < 5 ∧
     ∀ c' : cell, 1 ≤ c'.1 < 5 → 1 ≤ c'.2 < 5 → before c' c →
       Copy.Cell c' ∈ Copy.moves_made s).
Proof.
  unfold Copy.make_random_move. split.
  - rewrite head_None. split.
    + intros Hnil c H1 H2.
      destruct (decide (Copy.Cell c ∈ Copy.moves_made s)) as [|Hnot]; [done|].
      exfalso.
      eapply (filter_nil_not_elem_of
                (λ n, Copy.Cell n ∉ Copy.moves_made s) _ c Hnil Hnot).
      apply elem_of_grid. by rewrite !elem_of_range.
    + intros Hall.
      destruct (filter _ _) as [|c l] eqn:Hf; [done|].
      assert (c ∈ c :: l) as Hin by left. rewrite <- Hf in Hin.
      apply list_elem_of_filter in Hin as [Hnot Hin].
      apply elem_of_grid in Hin as [H1%elem_of_range H2%elem_of_range].
      destruct Hnot. by apply Hall.
  - intros c Hc.
    pose proof (head_Some_elem_of _ _ Hc) as Hhd.
    apply list_elem_of_filter in Hhd as [Hnot Hin].
    apply elem_of_grid in Hin as [H1%elem_of_range H2%elem_of_range].
    split; [exact Hnot|]. split; [exact H1|]. split; [exact H2|].
    intros c' H1' H2' Hbefore.
    apply head_filter_split in Hc as (l1 & l2 & Hgrid & _ & Hl1).
    pose proof grid4_sorted as Hsorted. rewrite Hgrid in Hsorted.
    apply StronglySorted_app in Hsorted as (_ & _ & Hcl2).
    apply StronglySorted_cons in Hcl2 as [Hafter _].
    assert (c' ∈ l1 ++ c :: l2) as Hin.
    { rewrite <- Hgrid. apply elem_of_grid. by rewrite !elem_of_range. }
    apply elem_of_app in Hin as [Hin|Hin].
    + rewrite Forall_forall in Hl1. specialize (Hl1 c' Hin).
      destruct (decide (Copy.Cell c' ∈ Copy.moves_made s)); [done|]. by destruct Hl1.
    + apply elem_of_cons in Hin as [->|Hin].
      * unfold before in Hbefore. lia.
      * rewrite Forall_forall in Hafter. specialize (Hafter c' Hin).
        unfold before in Hbefore, Hafter. lia.
Qed.
